(** * Modddel: event-sourced aggregates, replay, repository and named mutex

    A shallow embedding of the TypeScript sources
    - [src/lib/src/Mutex.ts]          (class [Mutex], class [Repository]),
    - [src/lib/src/aggregateData.ts]  (instance registry, [loadAggregate]),
    - [src/lib/src/aggregate.ts]      ([defineAggregateRoot]),
    - [utils.ts]                      ([EventSorter], [areEventsContinous]),
    - [errors.ts]                     (the error classes),
    followed by the properties checked against them.

    JavaScript numbers that carry versions are integers here ([Z]); plain
    objects used as dictionaries, [Map], [WeakMap] and [Set] are finite maps
    and sets.  The plain object [#queue] of the mutex is the finite map of
    its own properties together with the names it inherits from
    [Object.prototype]. *)

From stdpp Require Import base option list gmap strings sorting.
From Stdlib Require Import ZArith Lia.

Set Implicit Arguments.
Set Maximal Implicit Insertion.

Local Open Scope string_scope.
Local Open Scope Z_scope.
Local Open Scope list_scope.

(* ===================================================================== *)
(** * Named mutex ([class Mutex])                                         *)
(* ===================================================================== *)

Module Mutex.

(** Every call of [aqquire] creates one promise; a ticket names it. *)
Definition Ticket := nat.

(** [QueueItem]: an object whose [resolve] closure captured the [name] of
    the [aqquire] call that built it and the [resolve] of its promise. *)
Record QueueItem := { item_name : string; item_ticket : Ticket }.

(** The two private fields, and the promises resolved so far, oldest
    first (the effect of the calls of [resolve()]).  [queue] holds the own
    properties of the plain object [#queue]; they are arrays. *)
Record t := {
  queue : gmap string (list QueueItem);
  locks : gset string;
  resolved : list (string * Ticket)
}.

Definition empty : t := {| queue := ∅; locks := ∅; resolved := [] |}.

(** The names that the object [{}] inherits from [Object.prototype].  What
    is read under one of them is a function (under [__proto__], the
    prototype object): a value that is not falsy and has neither a method
    [push] nor a method [shift]. *)
Definition inherited : list string :=
  ["constructor"; "hasOwnProperty"; "isPrototypeOf"; "propertyIsEnumerable";
   "toLocaleString"; "toString"; "valueOf"; "__proto__";
   "__defineGetter__"; "__defineSetter__"; "__lookupGetter__"; "__lookupSetter__"].

(** What [this.#queue[name]] evaluates to: [undefined], an array the mutex
    stored, or a value inherited from the prototype. *)
Inductive Slot :=
| Undefined
| Items (items : list QueueItem)
| Inherited.

Definition read (name : string) (q : gmap string (list QueueItem)) : Slot :=
  match q !! name with
  | Some items => Items items
  | None => if decide (name ∈ inherited) then Inherited else Undefined
  end.

(** How a call ends: it returns, or it throws the [TypeError] of calling
    [push] or [shift] on a value that has no such method. *)
Inductive Completion := Done | TypeError.

(** [this.#queue[name]?.shift()] on an array or on [undefined]. *)
Definition shift (name : string) (q : gmap string (list QueueItem))
  : option QueueItem * gmap string (list QueueItem) :=
  match q !! name with
  | Some (next :: rest) => (Some next, <[name := rest]> q)
  | Some [] => (None, q)
  | None => (None, q)
  end.

(** [this.#queue[name].push(item)], after [this.#queue[name] = []] when
    the entry was missing. *)
Definition push (name : string) (item : QueueItem)
    (q : gmap string (list QueueItem)) : gmap string (list QueueItem) :=
  <[name := default [] (q !! name) ++ [item]]> q.

(** The executor of the promise built by [aqquire(name)].  When it throws,
    the promise is rejected: it is neither resolved nor queued. *)
Definition aqquire_call (name : string) (ticket : Ticket) (m : t) : Completion * t :=
  if decide (name ∈ locks m) then
    match read name (queue m) with
    | Inherited => (TypeError, m)
    | Undefined | Items _ =>
        (Done,
         {| queue := push name {| item_name := name; item_ticket := ticket |} (queue m);
            locks := locks m;
            resolved := resolved m |})
    end
  else
    (Done,
     {| queue := queue m;
        locks := {[name]} ∪ locks m;
        resolved := resolved m ++ [(name, ticket)] |}).

(** The [release] closure of [aqquire(name)], run by [Symbol.dispose]: the
    lock is deleted before the queue is read. *)
Definition release_call (name : string) (m : t) : Completion * t :=
  let locks1 := locks m ∖ {[name]} in
  match read name (queue m) with
  | Inherited =>
      (TypeError, {| queue := queue m; locks := locks1; resolved := resolved m |})
  | Undefined | Items _ =>
      match shift name (queue m) with
      | (None, q) => (Done, {| queue := q; locks := locks1; resolved := resolved m |})
      | (Some next, q) =>
          (Done,
           {| queue := q;
              locks := {[item_name next]} ∪ locks1;
              resolved := resolved m ++ [(item_name next, item_ticket next)] |})
      end
  end.

(** The mutex that a call of [aqquire(name)] and a call of the [release]
    closure leave. *)
Definition aqquire (name : string) (ticket : Ticket) (m : t) : t :=
  (aqquire_call name ticket m).2.

Definition release (name : string) (m : t) : t := (release_call name m).2.

(** A history of calls on one mutex object. *)
Inductive Op := Aqquire (name : string) (ticket : Ticket) | Release (name : string).

Definition op_name (op : Op) : string :=
  match op with Aqquire name _ => name | Release name => name end.

Definition step (m : t) (op : Op) : t :=
  match op with
  | Aqquire name ticket => aqquire name ticket m
  | Release name => release name m
  end.

Definition run (ops : list Op) (m : t) : t := fold_left step ops m.

(** Observations on one key. *)
Definition holds (k : string) (m : t) : bool := bool_decide (k ∈ locks m).
Definition waiting (k : string) (m : t) : list QueueItem := default [] (queue m !! k).
Definition waiters (k : string) (m : t) : list Ticket := item_ticket <$> waiting k m.

Definition tickets_of (k : string) (log : list (string * Ticket)) : list Ticket :=
  snd <$> filter (λ e, e.1 = k) log.

Definition granted (k : string) (m : t) : list Ticket := tickets_of k (resolved m).



(** Everything one key can observe of the mutex. *)
Definition view (k : string) (m : t) : bool * list QueueItem * list Ticket :=
  (holds k m, waiting k m, granted k m).

(** What holds of every state the two methods can build. *)
Definition wf (m : t) : Prop :=
  ∀ k, (k ∉ locks m → waiting k m = []) ∧
       (∀ it, it ∈ waiting k m → item_name it = k).

(** A call by a user of the mutex.  [Acquire name ticket] is
    [aqquire(name)], which returns a lock object with the promise [ticket];
    [Dispose name ticket] is [Symbol.dispose] of that lock object, which runs
    the [release] closure of that call of [aqquire]. *)
Inductive Call :=
| Acquire (name : string) (ticket : Ticket)
| Dispose (name : string) (ticket : Ticket).

Definition op_of (call : Call) : Op :=
  match call with
  | Acquire name ticket => Aqquire name ticket
  | Dispose name _ => Release name
  end.

Definition ops_of (calls : list Call) : list Op := op_of <$> calls.

(** The lock objects disposed of in a history. *)
Definition disposals (calls : list Call) : list (string * Ticket) :=
  omap (λ call, match call with
                | Dispose name ticket => Some (name, ticket)
                | Acquire _ _ => None
                end) calls.

(** The use that [using lock = mutex.aqquire(name); await lock.promise]
    makes of the mutex when the promises are resolved: every call of
    [aqquire] builds a new promise, and a lock object is disposed of once,
    after its promise was resolved.  [seen] are the promises built so far,
    [gone] the lock objects disposed of. *)
Fixpoint disciplined (m : t) (seen gone : list (string * Ticket)) (calls : list Call)
  : bool :=
  match calls with
  | [] => true
  | Acquire name ticket :: rest =>
      bool_decide ((name, ticket) ∉ seen)
      && disciplined (aqquire name ticket m) ((name, ticket) :: seen) gone rest
  | Dispose name ticket :: rest =>
      bool_decide ((name, ticket) ∈ resolved m)
      && bool_decide ((name, ticket) ∉ gone)
      && disciplined (release name m) seen ((name, ticket) :: gone) rest
  end.

(** What such a use keeps true of the mutex [m], the promises built and the
    lock objects disposed of: the promises resolved or queued were built,
    nothing queued is resolved or queued twice, what was disposed of was
    resolved, and on every key all the grants but the last one of a held
    key were disposed of. *)
Definition kept (m : t) (seen gone : list (string * Ticket)) : Prop :=
  wf m
  ∧ (∀ p, p ∈ resolved m → p ∈ seen)
  ∧ (∀ k ticket, ticket ∈ waiters k m → (k, ticket) ∈ seen ∧ (k, ticket) ∉ resolved m)
  ∧ (∀ k, NoDup (waiters k m))
  ∧ (∀ p, p ∈ gone → p ∈ resolved m)
  ∧ (∀ k, if holds k m
          then (∃ before ticket,
                  granted k m = before ++ [ticket]
                  ∧ ((k, ticket) ∉ gone)
                  ∧ (∀ earlier, earlier ∈ before → (k, earlier) ∈ gone))
          else (∀ ticket, ticket ∈ granted k m → (k, ticket) ∈ gone)).

(** The holders of key [k] after a history: the tickets granted on [k]
    whose lock object was not disposed of. *)
Definition holders (k : string) (calls : list Call) : list Ticket :=
  filter (λ ticket, (k, ticket) ∉ disposals calls)
         (granted k (run (ops_of calls) empty)).

End Mutex.

(* ===================================================================== *)
(** * Errors and the effects of the registry                              *)
(* ===================================================================== *)

(** The errors the library constructs ([errors.ts] and the [new Error(...)]
    sites of [aggregateData.ts]), and [Foreign]: a value thrown by code the
    caller supplies (event handlers, store methods, listeners). *)
Inductive Error :=
| InstanceDoesNotExistError
| ConcurrencyError
| AggregateNotDefined (name : string)
| NoEventsDefined
| EventsDontStartAfterSnapshot
| EventsNotContinous
| HandlerNotDefined (event aggregate : string)
| Foreign (what : string).

(** How a call ends: with a value or with a thrown error. *)
Inductive Res (A : Type) : Type :=
| Ok (a : A)
| Throw (e : Error).
Arguments Throw {A} e.

(** How a call of a function the caller supplied ends. *)
Inductive Outcome :=
| Returns
| Throws (what : string).

(** A computation on a mutable state [S]; what it wrote before throwing
    stays written. *)
Definition ST (S A : Type) : Type := S → Res A * S.

Definition ret {S A : Type} (a : A) : ST S A := λ s, (Ok a, s).

Definition throw {S A : Type} (e : Error) : ST S A := λ s, (Throw e, s).

Definition bind {S A B : Type} (c : ST S A) (k : A → ST S B) : ST S B :=
  λ s, match c s with
       | (Ok a, s') => k a s'
       | (Throw e, s') => (Throw e, s')
       end.

Definition gets {S A : Type} (f : S → A) : ST S A := λ s, (Ok (f s), s).

Definition modify {S : Type} (f : S → S) : ST S unit := λ s, (Ok tt, f s).

Notation "'let!' x := c 'in' k" := (bind c (λ x, k))
  (at level 10, x name, c at level 100, k at level 200).

(** Identity of a JavaScript object. *)
Abbreviation ref := positive.

(** JavaScript values that reach a template literal in [Repository]. *)
Inductive JsValue :=
| JsString (s : string)
| JsFunction (source : string).

(** [ToString] as a template literal applies it: a string is itself, a
    function gives its source text ([Function.prototype.toString]). *)
Definition ToString (v : JsValue) : string :=
  match v with
  | JsString s => s
  | JsFunction source => source
  end.

Section Registry.

Variables (StateT PayloadT : Type).

(** [IEvent] *)
Record IEvent := { ev_name : string; ev_payload : PayloadT }.

(** [IAggregateEvent] / [AggregateEvent] *)
Record AggregateEvent := {
  name : string;
  payload : PayloadT;
  occuredAt : Z;
  version : Z
}.

(** [ISnapshot]: [snap_state] is the object the store handed over. *)
Record ISnapshot := { snap_version : Z; snap_state : ref }.

(** [interface AggregateData] *)
Record AggregateData := {
  state : ref;
  data_version : Z;
  recordedEvents : list AggregateEvent
}.

(** An event handler is called with [this = { state }] and the event; it
    may change any object it reaches and may throw. *)
Definition EventHandler : Type :=
  ref → IEvent → gmap ref StateT → Outcome * gmap ref StateT.

(** [AggregateOptions]: [initialState] is the content of the object the
    factory returns; [opt_events] is absent when the option is omitted.  The
    actions act through [this_state] and [recordThat] below. *)
Record AggregateOptions := {
  opt_name : string;
  initialState : StateT;
  opt_events : option (gmap string EventHandler)
}.

(** An instance object: its identity (the key of the [WeakMap]), the scope
    of the [create] call whose closures it holds, and what they captured:
    [inst_id] is what the method [id()] returns. *)
Record AggregateInstance := {
  self : ref;
  scope : positive;
  inst_id : string;
  options : AggregateOptions
}.

(** [instance.aggregateName()] *)
Definition aggregateName (instance : AggregateInstance) : string :=
  opt_name (options instance).

(** The module state of [aggregateData.ts] with the objects it points to:
    the heap of state objects, the [WeakMap] [aggregatesData], the variable
    [instance] of every [create] call, the [Map] [aggregateDefinitions], the
    clock read by [Date.now()] and the next unused object identity. *)
Record World := {
  heap : gmap ref StateT;
  aggregatesData : gmap ref AggregateData;
  scopes : gmap positive (option ref);
  aggregateDefinitions : gmap string AggregateOptions;
  now : Z;
  next : positive
}.

Definition emptyWorld (clock : Z) : World :=
  {| heap := ∅; aggregatesData := ∅; scopes := ∅; aggregateDefinitions := ∅;
     now := clock; next := 1%positive |}.

Definition set_heap (h : gmap ref StateT) (w : World) : World :=
  {| heap := h; aggregatesData := aggregatesData w; scopes := scopes w;
     aggregateDefinitions := aggregateDefinitions w; now := now w; next := next w |}.

Definition set_aggregatesData (d : gmap ref AggregateData) (w : World) : World :=
  {| heap := heap w; aggregatesData := d; scopes := scopes w;
     aggregateDefinitions := aggregateDefinitions w; now := now w; next := next w |}.

Definition set_scopes (sc : gmap positive (option ref)) (w : World) : World :=
  {| heap := heap w; aggregatesData := aggregatesData w; scopes := sc;
     aggregateDefinitions := aggregateDefinitions w; now := now w; next := next w |}.

Definition set_aggregateDefinitions (d : gmap string AggregateOptions) (w : World) : World :=
  {| heap := heap w; aggregatesData := aggregatesData w; scopes := scopes w;
     aggregateDefinitions := d; now := now w; next := next w |}.

(** A new object identity. *)
Definition alloc : ST World ref :=
  λ w, (Ok (next w),
        {| heap := heap w; aggregatesData := aggregatesData w; scopes := scopes w;
           aggregateDefinitions := aggregateDefinitions w; now := now w;
           next := Pos.succ (next w) |}).

(** [getAggregateDefinition] *)
Definition getAggregateDefinition (name : string) : ST World AggregateOptions :=
  λ w, match aggregateDefinitions w !! name with
       | Some config => (Ok config, w)
       | None => (Throw (AggregateNotDefined name), w)
       end.

(** [registerAggregate] *)
Definition registerAggregate (options : AggregateOptions) : ST World unit :=
  modify (λ w, set_aggregateDefinitions
                 (<[opt_name options := options]> (aggregateDefinitions w)) w).

(** [createInstanceData] *)
Definition createInstanceData (instance : ref) (state : ref) : ST World unit :=
  modify (λ w, set_aggregatesData
                 (<[instance := {| state := state; data_version := 0;
                                   recordedEvents := [] |}]> (aggregatesData w)) w).

(** [instance && aggregatesData.get(instance)] *)
Definition lookupData (instance : option ref) (w : World) : option AggregateData :=
  match instance with
  | Some r => aggregatesData w !! r
  | None => None
  end.

(** [aggregateData] *)
Definition aggregateData (instance : option ref) : ST World AggregateData :=
  λ w, match lookupData instance w with
       | Some data => (Ok data, w)
       | None => (Throw InstanceDoesNotExistError, w)
       end.

(** [recordEvent] *)
Definition recordEvent (instance : option ref) (event : IEvent) : ST World unit :=
  λ w, match instance, lookupData instance w with
       | Some r, Some data =>
           let version1 := data_version data + 1 in
           (Ok tt,
            set_aggregatesData
              (<[r := {| state := state data;
                         data_version := version1;
                         recordedEvents :=
                           recordedEvents data ++
                           [{| name := ev_name event;
                               payload := ev_payload event;
                               occuredAt := now w;
                               version := version1 |}] |}]> (aggregatesData w)) w)
       | _, _ => (Throw InstanceDoesNotExistError, w)
       end.

(** [popRecordedEvents] *)
Definition popRecordedEvents (instance : ref) : ST World (list AggregateEvent) :=
  λ w, match aggregatesData w !! instance with
       | Some data =>
           (Ok (recordedEvents data),
            set_aggregatesData
              (<[instance := {| state := state data;
                                data_version := data_version data;
                                recordedEvents := [] |}]> (aggregatesData w)) w)
       | None => (Throw InstanceDoesNotExistError, w)
       end.


(** [defineAggregateRoot]: the definition it returns is determined by the
    options ([name()] reads them, [create] is below). *)
Definition defineAggregateRoot (options : AggregateOptions) : ST World AggregateOptions :=
  let! _ := registerAggregate options in
  ret options.

(** [definition.create(id)]: a scope for the closures, the instance object,
    [let instance = {...}], the object returned by [options.initialState()],
    then [createInstanceData]. *)
Definition create (options : AggregateOptions) (id : string) : ST World AggregateInstance :=
  let! sc := alloc in
  let! obj := alloc in
  let! _ := modify (λ w, set_scopes (<[sc := Some obj]> (scopes w)) w) in
  let! st := alloc in
  let! _ := modify (λ w, set_heap (<[st := initialState options]> (heap w)) w) in
  let! _ := createInstanceData obj st in
  ret {| self := obj; scope := sc; inst_id := id; options := options |}.

(** [instance[Symbol.dispose]()]: [instance = null] in the scope of the
    [create] call. *)
Definition dispose (instance : AggregateInstance) : ST World unit :=
  modify (λ w, set_scopes (<[scope instance := None]> (scopes w)) w).

(** The value of the variable [instance] that the closures of a [create]
    call read. *)
Definition instanceVar (instance : AggregateInstance) (w : World) : option ref :=
  default None (scopes w !! scope instance).

(** [const state = () => aggregateData(instance).state] *)
Definition closure_state (instance : AggregateInstance) : ST World ref :=
  λ w, (let! data := aggregateData (instanceVar instance w) in ret (state data)) w.

(** [const stateCopy = (): StateT => state()] *)
Definition stateCopy (instance : AggregateInstance) : ST World ref :=
  closure_state instance.

(** [this.state()] of an action: [state: () => stateCopy()]. *)
Definition this_state (instance : AggregateInstance) : ST World ref :=
  stateCopy instance.

(** Reading and writing an object through a reference. *)
Definition readObject (r : ref) (w : World) : option StateT := heap w !! r.

Definition writeObject (r : ref) (f : StateT → StateT) : ST World unit :=
  modify (λ w, set_heap (alter f r (heap w)) w).

(** The content of the object [data.state] of an instance. *)
Definition storedState (instance : ref) (w : World) : option StateT :=
  match aggregatesData w !! instance with
  | Some data => heap w !! state data
  | None => None
  end.

(** [handler.call({ state }, event)] *)
Definition callHandler (handler : EventHandler) (st : ref) (event : IEvent) : ST World unit :=
  λ w, match handler st event (heap w) with
       | (Returns, h) => (Ok tt, set_heap h w)
       | (Throws what, h) => (Throw (Foreign what), set_heap h w)
       end.

(** [options.events?.[name]] *)
Definition handlerOf (options : AggregateOptions) (name : string) : option EventHandler :=
  match opt_events options with
  | Some handlers => handlers !! name
  | None => None
  end.

(** [this.recordThat(name, payload)] of an action. *)
Definition recordThat (instance : AggregateInstance) (name : string) (payload : PayloadT)
  : ST World unit :=
  let event := {| ev_name := name; ev_payload := payload |} in
  match handlerOf (options instance) name with
  | None => ret tt
  | Some handler =>
      let! _ := (λ w, recordEvent (instanceVar instance w) event w) in
      let! st := closure_state instance in
      callHandler handler st event
  end.

(** [EventSorter.byVersion] *)
Definition byVersion (a b : AggregateEvent) : Z := version a - version b.

(** [Array.prototype.toSorted(compare)]: a stable sort. *)
Fixpoint insertSorted {A : Type} (compare : A → A → Z) (x : A) (l : list A) : list A :=
  match l with
  | [] => [x]
  | y :: l' => if decide (0 < compare x y) then y :: insertSorted compare x l'
               else x :: y :: l'
  end.

Definition toSorted {A : Type} (compare : A → A → Z) (l : list A) : list A :=
  foldr (insertSorted compare) [] l.

(** The loop of [areEventsContinous], [prev] being [versions[i - 1]]. *)
Fixpoint continousFrom (prev : Z) (versions : list Z) : bool :=
  match versions with
  | [] => true
  | v :: rest => if decide (prev ≠ v - 1) then false else continousFrom v rest
  end.

(** [areEventsContinous] *)
Definition areEventsContinous (sortedEvents : list AggregateEvent) : bool :=
  if decide (length sortedEvents < 2)%nat then true
  else match version <$> sortedEvents with
       | [] => true
       | v :: rest => continousFrom v rest
       end.

(** Some adjacent pair of versions does not increase by exactly 1. *)
Definition adjacentBreak (versions : list Z) : Prop :=
  ∃ (i : nat) (a b : Z), versions !! i = Some a ∧ versions !! S i = Some b ∧ b ≠ a + 1.

(** [data.version = ...] on the record [data] of an instance. *)
Definition setVersion (instance : ref) (v : Z) : ST World unit :=
  modify (λ w, set_aggregatesData
                 (alter (λ d, {| state := state d; data_version := v;
                                 recordedEvents := recordedEvents d |})
                        instance (aggregatesData w)) w).

(** [data.version = snapshot.version; data.state = snapshot.state] *)
Definition setSnapshot (instance : ref) (snapshot : ISnapshot) : ST World unit :=
  modify (λ w, set_aggregatesData
                 (alter (λ d, {| state := snap_state snapshot;
                                 data_version := snap_version snapshot;
                                 recordedEvents := recordedEvents d |})
                        instance (aggregatesData w)) w).

(** The [for (const event of newEvents)] loop of [loadAggregate]; [st] is
    [data.state], which nothing in the loop assigns. *)
Fixpoint applyEvents (options : AggregateOptions) (instance : ref) (st : ref)
    (newEvents : list AggregateEvent) : ST World unit :=
  match newEvents with
  | [] => ret tt
  | event :: rest =>
      match handlerOf options (name event) with
      | None => throw (HandlerNotDefined (name event) (opt_name options))
      | Some handler =>
          let! _ := callHandler handler st
                      {| ev_name := name event; ev_payload := payload event |} in
          let! _ := setVersion instance (version event) in
          applyEvents options instance st rest
      end
  end.

(** The event has a handler, and the handler returns whenever called. *)
Definition handled (options : AggregateOptions) (event : AggregateEvent) : Prop :=
  ∃ handler, handlerOf options (name event) = Some handler
             ∧ ∀ st e h, (handler st e h).1 = Returns.

(** [snapshot?.version ?? 0] *)
Definition snapshotVersion (snapshot : option ISnapshot) : Z :=
  match snapshot with
  | Some s => snap_version s
  | None => 0
  end.

(** [snapshot ? events.filter((event) => event.version > snapshot.version)
    : events] *)
Definition keptEvents (events : list AggregateEvent) (snapshot : option ISnapshot)
  : list AggregateEvent :=
  match snapshot with
  | Some s => filter (λ event, snap_version s < version event) events
  | None => events
  end.

(** [newEvents]: the events [loadAggregate] keeps, in the order it applies
    them. *)
Definition newEventsOf (events : list AggregateEvent) (snapshot : option ISnapshot)
  : list AggregateEvent :=
  toSorted byVersion (keptEvents events snapshot).

(** [loadAggregate] *)
Definition loadAggregate (aggregateName : string) (id : string)
    (events : list AggregateEvent) (snapshot : option ISnapshot)
  : ST World AggregateInstance :=
  let! options := getAggregateDefinition aggregateName in
  let! instance := create options id in
  let! data := aggregateData (Some (self instance)) in
  let! _ := match snapshot with
            | Some s => setSnapshot (self instance) s
            | None => ret tt
            end in
  let st := match snapshot with Some s => snap_state s | None => state data end in
  match events with
  | [] => ret instance
  | _ :: _ =>
      match opt_events options with
      | None => throw NoEventsDefined
      | Some _ =>
          match newEventsOf events snapshot with
          | [] => ret instance
          | first :: rest =>
              if decide (version first ≠ snapshotVersion snapshot + 1)
              then throw EventsDontStartAfterSnapshot
              else if negb (areEventsContinous (first :: rest))
              then throw EventsNotContinous
              else
                let! _ := applyEvents options (self instance) st (first :: rest) in
                ret instance
          end
      end
  end.

(** A sequence of calls of [recordEvent] on one instance. *)
Fixpoint recordAll (instance : option ref) (events : list IEvent) : ST World unit :=
  match events with
  | [] => ret tt
  | event :: rest =>
      let! _ := recordEvent instance event in
      recordAll instance rest
  end.

(** The pending events of a record carry consecutive versions that end at
    the record's version. *)
Definition pendingContiguous (data : AggregateData) : Prop :=
  version <$> recordedEvents data
  = seqZ (data_version data - Z.of_nat (length (recordedEvents data)) + 1)
         (Z.of_nat (length (recordedEvents data))).

(** Every identity in use is below the next one to be handed out. *)
Definition allocated (w : World) : Prop :=
  ∀ r, (next w ≤ r)%positive →
       heap w !! r = None ∧ aggregatesData w !! r = None ∧ scopes w !! r = None.

(** An aggregate event as the event given to its handler:
    [{ name: String(event.name), payload: event.payload }]. *)
Definition eventOf (event : AggregateEvent) : IEvent :=
  {| ev_name := name event; ev_payload := payload event |}.

(** A sequence of calls of [this.recordThat], as the actions of one
    instance make them. *)
Fixpoint recordThatAll (instance : AggregateInstance) (events : list IEvent)
  : ST World unit :=
  match events with
  | [] => ret tt
  | event :: rest =>
      let! _ := recordThat instance (ev_name event) (ev_payload event) in
      recordThatAll instance rest
  end.

(** The handlers of [options] do nothing but update the object they get as
    [this.state]: the handler of the name [n] replaces its content [x] by
    [reduce n event x]. *)
Definition reducers (options : AggregateOptions)
    (reduce : string → IEvent → StateT → StateT) : Prop :=
  ∀ n handler, handlerOf options n = Some handler →
    ∀ st event h, handler st event h = (Returns, alter (reduce n event) st h).

(** The content [reducers] leave in a state object after the events given,
    in their order. *)
Definition reduceAll (reduce : string → IEvent → StateT → StateT)
    (events : list IEvent) (x : StateT) : StateT :=
  foldl (λ x event, reduce (ev_name event) event x) x events.

(** The events of [events.map(([name, payload], index) => ...)] in
    [loadAggregateWithEventHistory] of the test utilities; a history event
    is a pair of a name and a payload. *)
Definition historyEvent (firstEventDate : Z) (snapshot : option ISnapshot)
    (index : nat) (event : string * PayloadT) : AggregateEvent :=
  {| name := event.1;
     payload := event.2;
     occuredAt := firstEventDate + 1000 * Z.of_nat index;
     version := snapshotVersion snapshot + Z.of_nat index + 1 |}.

(** [loadAggregateWithEventHistory] *)
Definition loadAggregateWithEventHistory (aggregateDefinition : AggregateOptions)
    (id : string) (events : list (string * PayloadT)) (snapshot : option ISnapshot)
  : ST World AggregateInstance :=
  λ w, let firstEventDate := now w - 10000 * Z.of_nat (length events) in
       let aggregateEvents := imap (historyEvent firstEventDate snapshot) events in
       loadAggregate (opt_name aggregateDefinition) id aggregateEvents snapshot w.

(** The loop of [toRecordEvents] over the recorded events:
    [events[i] !== recordedEvents[i].name], where [events[i]] is [undefined]
    beyond the end of [events]. *)
Fixpoint namesAgree (events : list string) (recordedEvents : list AggregateEvent) : bool :=
  match recordedEvents with
  | [] => true
  | recorded :: rest =>
      match events with
      | expected :: others =>
          if decide (expected ≠ name recorded) then false else namesAgree others rest
      | [] => false
      end
  end.

(** [toRecordEvents(events)] of the test utilities for a list of names: the
    field [result] of the assertion it returns.  [execution] is how the
    callback given to [expect] ended. *)
Definition toRecordEvents (instance : ref) (execution : Res unit) (events : list string)
  : ST World bool :=
  match execution with
  | Throw _ => ret false
  | Ok _ =>
      let! recordedEvents := popRecordedEvents instance in
      if decide (length recordedEvents ≠ length events) then ret false
      else ret (namesAgree events recordedEvents)
  end.

End Registry.

(* ===================================================================== *)
(** * Repository ([class Repository])                                     *)
(* ===================================================================== *)

(** Source text of the method [id() { return id }] of an instance object
    ([aggregate.ts]); it is what converting the method to a string gives,
    whatever identifier the instance was created with. *)
Definition id_method_source : string :=
  "id() {
          return id
        }".

(** How a call into code of the caller (a store method, a listener, the
    emitter) ends: it returns a value (at once or through a promise that is
    fulfilled), it throws before returning, or it returns a promise that is
    rejected. *)
Inductive Settle (A : Type) : Type :=
| Value (a : A)
| SyncThrow (what : string)
| Rejection (what : string).
Arguments SyncThrow {A} what.
Arguments Rejection {A} what.

Section Repository.

Variables (StateT PayloadT ExtT : Type).

(** [IStreamEvent] *)
Record IStreamEvent := {
  aggregateId : string;
  aggregateType : string;
  se_name : string;
  se_occuredAt : Z;
  se_payload : PayloadT;
  se_version : Z
}.

(** Such a call acts on the world outside the library, of type [ExtT]. *)
Definition External (A : Type) : Type := ExtT → Settle A * ExtT.

(** [ISnapshotStore]; the definition is passed as its name. *)
Record ISnapshotStore := {
  loadSnapshot : string → string → External (option ISnapshot);
  saveSnapshot : string → string → ISnapshot → External unit
}.

(** [IEventStore]; [snapshotStore] is present when [isSnapshotStore(store)]. *)
Record IEventStore := {
  getAggregateVersion : string → string → External Z;
  loadHistory : string → string → Z → External (list IStreamEvent);
  saveEvents : list IStreamEvent → External unit;
  snapshotStore : option ISnapshotStore
}.

(** A listener given to [subscribe]. *)
Definition Listener : Type := list IStreamEvent → External unit.

(** A repository: its store and the listeners of its two channels. *)
Record Repository := {
  store : IEventStore;
  eventsRecorded : list Listener;
  eventsPublished : list Listener
}.

(** The calls a repository made on its store, with what they gave back. *)
Inductive StoreCall :=
| GetAggregateVersion (definition id : string) (result : Settle Z)
| LoadHistory (definition id : string) (sinceVersion : Z)
| SaveEvents (events : list IStreamEvent) (result : Settle unit)
| LoadSnapshot (definition id : string)
| SaveSnapshot (definition id : string) (snapshot : ISnapshot) (result : Settle unit).

(** What a repository call runs on: the registry, the outside world, the
    private [#mutex], the store calls made so far and the rejections of
    promises nobody awaited. *)
Record Sys := {
  world : World StateT PayloadT;
  ext : ExtT;
  mutex : Mutex.t;
  calls : list StoreCall;
  unhandled : list string
}.

Definition set_world (w : World StateT PayloadT) (s : Sys) : Sys :=
  {| world := w; ext := ext s; mutex := mutex s; calls := calls s;
     unhandled := unhandled s |}.

Definition set_mutex (m : Mutex.t) (s : Sys) : Sys :=
  {| world := world s; ext := ext s; mutex := m; calls := calls s;
     unhandled := unhandled s |}.

Definition liftW {A : Type} (c : ST (World StateT PayloadT) A) : ST Sys A :=
  λ s, let '(r, w) := c (world s) in (r, set_world w s).

(** A call into outside code that leaves no entry in [calls]. *)
Definition external {A : Type} (c : External A) : ST Sys (Settle A) :=
  λ s, let '(r, x) := c (ext s) in
       (Ok r, {| world := world s; ext := x; mutex := mutex s; calls := calls s;
                 unhandled := unhandled s |}).

(** A call of a store method, entered in [calls]. *)
Definition storeCall {A : Type} (c : External A) (entry : Settle A → StoreCall)
  : ST Sys (Settle A) :=
  λ s, let '(r, x) := c (ext s) in
       (Ok r, {| world := world s; ext := x; mutex := mutex s;
                 calls := calls s ++ [entry r]; unhandled := unhandled s |}).

(** [await call(...)]: a throw and a rejection both surface here. *)
Definition await {A : Type} (r : Settle A) : ST Sys A :=
  match r with
  | Value a => ret a
  | SyncThrow what => throw (Foreign what)
  | Rejection what => throw (Foreign what)
  end.

(** [call(...)] as a statement, its promise dropped: only a throw surfaces;
    a rejection stays unhandled. *)
Definition detached {A : Type} (r : Settle A) : ST Sys unit :=
  match r with
  | Value _ => ret tt
  | SyncThrow what => throw (Foreign what)
  | Rejection what =>
      modify (λ s, {| world := world s; ext := ext s; mutex := mutex s;
                      calls := calls s; unhandled := unhandled s ++ [what] |})
  end.

(** A call into outside code fails with [what]: it throws it, or the
    promise it returns is rejected with it. *)
Definition failsWith {A : Type} (c : Settle A * ExtT) (what : string) : Prop :=
  c.1 = SyncThrow what ∨ c.1 = Rejection what.

(** Modelled from the spec: [emit] of [EventEmitter], from the package
    [@nulltype/event-emitter], which is not among the sources.  It delivers
    the events to all subscribers, sequentially, awaiting each; if any
    subscriber fails, the failure is propagated: the promise [emit] returns
    is rejected and the later subscribers are not called. *)
Fixpoint emit (listeners : list Listener) (events : list IStreamEvent) : External unit :=
  match listeners with
  | [] => λ x, (Value tt, x)
  | listener :: rest =>
      λ x, match listener events x with
           | (Value _, x') => emit rest events x'
           | (SyncThrow what, x') => (Rejection what, x')
           | (Rejection what, x') => (Rejection what, x')
           end
  end.

(** [aggregateEventToStreamEvent] *)
Definition aggregateEventToStreamEvent (id aggregateName : string)
    (event : AggregateEvent PayloadT) : IStreamEvent :=
  {| aggregateId := id;
     aggregateType := aggregateName;
     se_name := name event;
     se_occuredAt := occuredAt event;
     se_payload := payload event;
     se_version := version event |}.

(** [aggregate.id], the property read without a call: the method itself. *)
Definition prop_id (aggregate : AggregateInstance StateT PayloadT) : JsValue :=
  JsFunction id_method_source.

(** The key of [save]: [`${aggregate.aggregateName()}:${aggregate.id}`] *)
Definition save_lock_key (aggregate : AggregateInstance StateT PayloadT) : string :=
  (ToString (JsString (aggregateName aggregate)) ++ ":" ++ ToString (prop_id aggregate))%string.

(** The key of [load]: [`${aggregateDefinition.name()}:${id}`] *)
Definition load_lock_key (aggregateDefinition : AggregateOptions StateT PayloadT)
    (id : string) : string :=
  (ToString (JsString (opt_name aggregateDefinition)) ++ ":" ++ ToString (JsString id))%string.

(** [using lock = this.#mutex.aqquire(key)]: the call that creates the
    promise [lock.promise]. *)
Definition aqquireLock (key : string) (ticket : Mutex.Ticket) (s : Sys) : Sys :=
  set_mutex (Mutex.aqquire key ticket (mutex s)) s.

(** The end of the scope of [using lock]: on every exit of the body the
    lock is disposed, which runs [release]. *)
Definition usingLock {A : Type} (key : string) (body : ST Sys A) : ST Sys A :=
  λ s, let '(r, s') := body s in (r, set_mutex (Mutex.release key (mutex s')) s').

(** [recordedEvents.at(-1)!.version] *)
Definition lastVersion (first : AggregateEvent PayloadT)
    (rest : list (AggregateEvent PayloadT)) : Z :=
  version (List.last rest first).

(** The statements of [save] that follow [if (!recordedEvents.length)
    return], for the recorded events [first :: rest]. *)
Definition saveRecorded (r : Repository) (aggregate : AggregateInstance StateT PayloadT)
    (definition : AggregateOptions StateT PayloadT)
    (first : AggregateEvent PayloadT) (rest : list (AggregateEvent PayloadT))
  : ST Sys unit :=
  let streamEvents :=
    aggregateEventToStreamEvent (inst_id aggregate) (aggregateName aggregate)
      <$> first :: rest in
  let! recorded := external (emit (eventsRecorded r) streamEvents) in
  let! _ := await recorded in
  let! reported := storeCall (getAggregateVersion (store r) (opt_name definition)
                                (inst_id aggregate))
                     (GetAggregateVersion (opt_name definition) (inst_id aggregate)) in
  let! currentVersion := await reported in
  if decide (currentVersion ≠ version first - 1) then throw ConcurrencyError
  else
    let! saved := storeCall (saveEvents (store r) streamEvents)
                    (SaveEvents streamEvents) in
    let! _ := await saved in
    let! _ := match snapshotStore (store r) with
              | Some snapshots =>
                  let! data := liftW (aggregateData (Some (self aggregate))) in
                  let snapshot := {| snap_version := lastVersion first rest;
                                     snap_state := state data |} in
                  let! stored := storeCall
                                   (saveSnapshot snapshots (opt_name definition)
                                      (inst_id aggregate) snapshot)
                                   (SaveSnapshot (opt_name definition)
                                      (inst_id aggregate) snapshot) in
                  detached stored
              | None => ret tt
              end in
    let! published := external (emit (eventsPublished r) streamEvents) in
    detached published.

(** [save], after [await lock.promise] and inside the scope of [lock]. *)
Definition save_body (r : Repository) (aggregate : AggregateInstance StateT PayloadT)
  : ST Sys unit :=
  let! recordedEvents := liftW (popRecordedEvents (self aggregate)) in
  let! definition := liftW (getAggregateDefinition (aggregateName aggregate)) in
  match recordedEvents with
  | [] => ret tt
  | first :: rest => saveRecorded r aggregate definition first rest
  end.

(** [Repository.save], from the moment [lock.promise] is resolved to the
    disposal of [lock]. *)
Definition save (r : Repository) (aggregate : AggregateInstance StateT PayloadT)
  : ST Sys unit :=
  usingLock (save_lock_key aggregate) (save_body r aggregate).

(** The [map] of [load]: a stream event as an aggregate event. *)
Definition streamEventToAggregateEvent (event : IStreamEvent) : AggregateEvent PayloadT :=
  {| name := se_name event;
     payload := se_payload event;
     occuredAt := se_occuredAt event;
     version := se_version event |}.

(** [load], after [await lock.promise] and inside the scope of [lock]. *)
Definition load_body (r : Repository) (aggregateDefinition : AggregateOptions StateT PayloadT)
    (id : string) : ST Sys (AggregateInstance StateT PayloadT) :=
  let! snapshot :=
    match snapshotStore (store r) with
    | Some snapshots =>
        let! loaded := storeCall (loadSnapshot snapshots (opt_name aggregateDefinition) id)
                         (λ _, LoadSnapshot (opt_name aggregateDefinition) id) in
        await loaded
    | None => ret None
    end in
  let! history := storeCall (loadHistory (store r) (opt_name aggregateDefinition) id
                               (snapshotVersion snapshot))
                    (λ _, LoadHistory (opt_name aggregateDefinition) id
                            (snapshotVersion snapshot)) in
  let! streamEvents := await history in
  liftW (loadAggregate (opt_name aggregateDefinition) id
           (streamEventToAggregateEvent <$> streamEvents) snapshot).

(** [Repository.load], from the moment [lock.promise] is resolved to the
    disposal of [lock]. *)
Definition load (r : Repository) (aggregateDefinition : AggregateOptions StateT PayloadT)
    (id : string) : ST Sys (AggregateInstance StateT PayloadT) :=
  usingLock (load_lock_key aggregateDefinition id) (load_body r aggregateDefinition id).

End Repository.

Arguments GetAggregateVersion {PayloadT} definition id result.
Arguments LoadHistory {PayloadT} definition id sinceVersion.
Arguments LoadSnapshot {PayloadT} definition id.
Arguments SaveSnapshot {PayloadT} definition id snapshot result.

(* ===================================================================== *)
(** * The aggregates and the store of the test suite                      *)
(* ===================================================================== *)

Module Fixtures.

(** [createAggregateDefinition] of [tests/aggregate.spec.ts]: the state is
    [{ total }], the payload of [NumbersAdded] is [{ a, b }]. *)
Definition NumbersAdded : EventHandler Z (Z * Z) :=
  λ st event h,
    (Returns, alter (λ total, total + ((ev_payload event).1 + (ev_payload event).2)) st h).

Definition MyAggregate : AggregateOptions Z (Z * Z) :=
  {| opt_name := "My aggregate";
     initialState := 1;
     opt_events := Some {[ "NumbersAdded" := NumbersAdded ]} |}.

(** The action ['Add number'] of [MyAggregate]. *)
Definition addNumber (instance : AggregateInstance Z (Z * Z)) (a b : Z)
  : ST (World Z (Z * Z)) unit :=
  let! st := this_state instance in
  let! total := gets (λ w, default 0 (readObject st w)) in
  if decide (total > a + b)
  then throw (Foreign "a in state is greater than a + b in args")
  else recordThat instance "NumbersAdded" (a, b).

(** A history event of [MyAggregate] with a given version. *)
Definition numbersAddedAt (v : Z) : AggregateEvent (Z * Z) :=
  {| name := "NumbersAdded"; payload := (1, 1); occuredAt := 0; version := v |}.

(** The aggregate [Agg] of the test 'does not modify the state in actions',
    which [tests/aggregate.spec.ts] keeps commented out: the state is
    [{ test }]; the handler expects [this.state.test] to be 1. *)
Definition EvilHasHappened : EventHandler Z Z :=
  λ st _ h,
    if decide (h !! st = Some 1) then (Returns, h)
    else (Throws "expected this.state.test to be 1", h).

Definition Agg : AggregateOptions Z Z :=
  {| opt_name := "Agg";
     initialState := 1;
     opt_events := Some {[ "EvilHasHappened" := EvilHasHappened ]} |}.

(** [evilAction(x)]: [this.state().test += x], then [recordThat]. *)
Definition evilAction (instance : AggregateInstance Z Z) (x : Z) : ST (World Z Z) unit :=
  let! st := this_state instance in
  let! _ := writeObject st (λ test, test + x) in
  recordThat instance "EvilHasHappened" x.

(** An aggregate defined without the option [events]. *)
Definition Bare : AggregateOptions Z Z :=
  {| opt_name := "Bare"; initialState := 0; opt_events := None |}.

(** [defineAggregate] of [tests/repository.spec.ts]: the state is the
    dictionary [items], the payload is [{ id, quantity }]. *)
Definition Items : Type := gmap string Z.

Definition ItemAdded : EventHandler Items (string * Z) :=
  λ st event h,
    let '(id, quantity) := ev_payload event in
    (Returns, alter (λ items, <[id := default 0 (items !! id) + quantity]> items) st h).

Definition ItemRemoved : EventHandler Items (string * Z) :=
  λ st event h,
    let '(id, quantity) := ev_payload event in
    (Returns,
     alter (λ items, let left := default 0 (items !! id) - quantity in
                     if decide (left = 0) then delete id items
                     else <[id := left]> items) st h).

Definition ShoppingCart : AggregateOptions Items (string * Z) :=
  {| opt_name := "ShoppingCart";
     initialState := ∅;
     opt_events := Some {[ "ItemAdded" := ItemAdded; "ItemRemoved" := ItemRemoved ]} |}.

Definition addItem (instance : AggregateInstance Items (string * Z)) (id : string)
    (quantity : Z) : ST (World Items (string * Z)) unit :=
  recordThat instance "ItemAdded" (id, quantity).

(** The store of [createRepository] in [tests/repository.spec.ts], with
    what the listeners of the tests collect. *)
Record Memory := {
  mem_events : list (IStreamEvent (string * Z));
  mem_snapshots : gmap (string * string) ISnapshot;
  mem_heard : list string
}.

Definition emptyMemory : Memory :=
  {| mem_events := []; mem_snapshots := ∅; mem_heard := [] |}.

Definition eventsOf (definition id : string) (m : Memory) : list (IStreamEvent (string * Z)) :=
  filter (λ event, aggregateType event = definition ∧ aggregateId event = id) (mem_events m).

Definition memoryStore (withSnapshot : bool) : IEventStore (string * Z) Memory :=
  {| getAggregateVersion := λ definition id m,
       (Value (Z.max (from_option se_version 0 (last (eventsOf definition id m)))
                     (from_option snap_version 0 (mem_snapshots m !! (definition, id)))), m);
     loadHistory := λ definition id sinceVersion m,
       (Value (toSorted (λ a b, se_version a - se_version b)
                 (filter (λ event, sinceVersion ≤ se_version event) (eventsOf definition id m))), m);
     saveEvents := λ newEvents m,
       (Value tt, {| mem_events := mem_events m ++ newEvents;
                     mem_snapshots := mem_snapshots m; mem_heard := mem_heard m |});
     snapshotStore :=
       if withSnapshot then
         Some {| loadSnapshot := λ definition id m,
                   (Value (mem_snapshots m !! (definition, id)), m);
                 saveSnapshot := λ definition id snapshot m,
                   (Value tt, {| mem_events := mem_events m;
                                 mem_snapshots := <[(definition, id) := snapshot]> (mem_snapshots m);
                                 mem_heard := mem_heard m |}) |}
       else None |}.

(** A listener that collects the names of the events it is given. *)
Definition collectNames : Listener (string * Z) Memory :=
  λ events m,
    (Value tt, {| mem_events := mem_events m; mem_snapshots := mem_snapshots m;
                  mem_heard := mem_heard m ++ (se_name <$> events) |}).

(** A listener that throws. *)
Definition failingListener : Listener (string * Z) Memory :=
  λ _ m, (SyncThrow "listener failed", m).

(** A listener whose promise is rejected. *)
Definition rejectingListener : Listener (string * Z) Memory :=
  λ _ m, (Rejection "listener rejected", m).

(** A registry with [ShoppingCart] defined, then [cart-1] created and one
    item added; the instance and the world. *)
Definition cartSetup (id : string)
  : Res (AggregateInstance Items (string * Z)) * World Items (string * Z) :=
  (let! definition := defineAggregateRoot ShoppingCart in
   let! cart := create definition id in
   let! _ := addItem cart "item-1" 1 in
   ret cart) (emptyWorld Items (string * Z) 1000).

(** [MyAggregate] defined, [agg-2] created, ['Add number'](1, 2) called,
    then the instance disposed; the instance and the world. *)
Definition disposedSetup : Res (AggregateInstance Z (Z * Z)) * World Z (Z * Z) :=
  (let! definition := defineAggregateRoot MyAggregate in
   let! my := create definition "agg-2" in
   let! _ := addNumber my 1 2 in
   let! _ := dispose my in
   ret my) (emptyWorld Z (Z * Z) 1000).

(** [Agg] defined and [aaaa] created; the instance and the world. *)
Definition aggSetup : Res (AggregateInstance Z Z) * World Z Z :=
  (let! definition := defineAggregateRoot Agg in
   create definition "aaaa") (emptyWorld Z Z 1000).

(** The instance and the world that [cartSetup "cart-1"] gives, and the
    event it leaves pending. *)
Definition cart1 : AggregateInstance Items (string * Z) :=
  {| self := 2%positive; scope := 1%positive; inst_id := "cart-1"; options := ShoppingCart |}.

Definition cartWorld : World Items (string * Z) := (cartSetup "cart-1").2.

(** Another instance of [ShoppingCart], with the identifier [cart-2]. *)
Definition cart2 : AggregateInstance Items (string * Z) :=
  {| self := 5%positive; scope := 4%positive; inst_id := "cart-2"; options := ShoppingCart |}.

(** The registry once [MyAggregate] is defined. *)
Definition myWorld : World Z (Z * Z) :=
  (defineAggregateRoot MyAggregate (emptyWorld Z (Z * Z) 1000)).2.

Definition itemAdded1 : AggregateEvent (string * Z) :=
  {| name := "ItemAdded"; payload := ("item-1", 1); occuredAt := 1000; version := 1 |}.

Definition cartData : AggregateData (string * Z) :=
  {| state := 3%positive; data_version := 1; recordedEvents := [itemAdded1] |}.

(** Repositories on the store of the tests, by their listeners. *)
Definition repository (withSnapshot : bool)
    (recorded published : list (Listener (string * Z) Memory))
  : Repository (string * Z) Memory :=
  {| store := memoryStore withSnapshot;
     eventsRecorded := recorded;
     eventsPublished := published |}.

(** The store after another instance with the identifier [cart-1] was
    saved: it holds version 1 of [cart-1]. *)
Definition busyMemory : Memory :=
  {| mem_events := [aggregateEventToStreamEvent "cart-1" "ShoppingCart" itemAdded1];
     mem_snapshots := ∅; mem_heard := [] |}.

Definition startSys (w : World Items (string * Z)) : Sys Items (string * Z) Memory :=
  {| world := w; ext := emptyMemory; mutex := Mutex.empty; calls := []; unhandled := [] |}.

Definition busySys : Sys Items (string * Z) Memory :=
  {| world := cartWorld; ext := busyMemory; mutex := Mutex.empty; calls := [];
     unhandled := [] |}.

End Fixtures.

(* ===================================================================== *)
(** * Facts: named mutex                                                  *)
(* ===================================================================== *)

Unset Implicit Arguments.

Module MutexFacts.
Import Mutex.

Lemma wf_empty : wf empty.
Proof. intros k. split; [done|]. unfold waiting; simpl. rewrite lookup_empty. simpl. set_solver. Qed.

Lemma waiting_push_eq k item q lk rs :
  waiting k {| queue := push k item q; locks := lk; resolved := rs |}
  = default [] (q !! k) ++ [item].
Proof. unfold waiting, push; simpl. by rewrite lookup_insert_eq. Qed.

Lemma waiting_push_ne k name item q lk rs :
  name ≠ k →
  waiting k {| queue := push name item q; locks := lk; resolved := rs |}
  = default [] (q !! k).
Proof. intros Hne. unfold waiting, push; simpl. by rewrite lookup_insert_ne. Qed.


Lemma read_cases name q : read name q = Inherited ∨ read name q ≠ Inherited.
Proof. destruct (read name q); [right|right|left]; done. Qed.

Lemma aqquire_free name ticket m :
  name ∉ locks m →
  aqquire name ticket m
  = {| queue := queue m; locks := {[name]} ∪ locks m;
       resolved := resolved m ++ [(name, ticket)] |}.
Proof. intros Hfree. unfold aqquire, aqquire_call. by rewrite decide_False. Qed.

Lemma aqquire_held name ticket m :
  name ∈ locks m → read name (queue m) ≠ Inherited →
  aqquire name ticket m
  = {| queue := push name {| item_name := name; item_ticket := ticket |} (queue m);
       locks := locks m; resolved := resolved m |}.
Proof.
  intros Hheld Hread. unfold aqquire, aqquire_call. rewrite decide_True by done.
  by destruct (read name (queue m)).
Qed.

Lemma aqquire_refused name ticket m :
  name ∈ locks m → read name (queue m) = Inherited → aqquire name ticket m = m.
Proof.
  intros Hheld Hread. unfold aqquire, aqquire_call. rewrite decide_True by done.
  by rewrite Hread.
Qed.

(** Under an inherited name nothing is queued, so the lock is deleted and
    nobody is served, as for a name without waiter. *)
Lemma release_unfold name m :
  release name m =
  match shift name (queue m) with
  | (None, q) => {| queue := q; locks := locks m ∖ {[name]}; resolved := resolved m |}
  | (Some next, q) =>
      {| queue := q;
         locks := {[item_name next]} ∪ locks m ∖ {[name]};
         resolved := resolved m ++ [(item_name next, item_ticket next)] |}
  end.
Proof.
  unfold release, release_call, read, shift.
  destruct (queue m !! name) as [[|next rest]|]; [done..|]. by case_decide.
Qed.

Lemma wf_aqquire name ticket m : wf m → wf (aqquire name ticket m).
Proof.
  intros Hwf k. destruct (Hwf k) as [Hfree Hitems].
  destruct (decide (name ∈ locks m)) as [Hin|Hout].
  - destruct (read_cases name (queue m)) as [Hread|Hread];
      [by rewrite aqquire_refused|].
    rewrite aqquire_held by done.
    destruct (decide (name = k)) as [->|Hne].
    + rewrite waiting_push_eq. split; [simpl; done|].
      intros it [Hit|Hit]%elem_of_app; [by apply Hitems|].
      apply list_elem_of_singleton in Hit. by subst.
    + rewrite waiting_push_ne by done. split; [simpl; apply Hfree | apply Hitems].
  - rewrite aqquire_free by done.
    split; [|apply Hitems]. simpl. intros Hk. apply Hfree. set_solver.
Qed.

Lemma wf_release name m : wf m → wf (release name m).
Proof.
  intros Hwf k. destruct (Hwf k) as [Hfree Hitems].
  rewrite release_unfold. unfold shift.
  destruct (queue m !! name) as [[|next rest]|] eqn:Hq; simpl.
  - split; [|apply Hitems]. simpl. intros Hk.
    destruct (decide (k = name)) as [->|Hne]; [unfold waiting; simpl; by rewrite Hq|].
    apply Hfree. set_solver.
  - assert (item_name next = name) as Hname.
    { destruct (Hwf name) as [_ H]. apply H. unfold waiting. rewrite Hq. simpl. set_solver. }
    unfold waiting; simpl. destruct (decide (k = name)) as [->|Hne].
    + rewrite lookup_insert_eq. simpl. split; [set_solver|].
      intros it Hit. apply Hitems. unfold waiting. rewrite Hq. simpl. set_solver.
    + rewrite lookup_insert_ne by done. split; [|apply Hitems].
      intros Hk. apply Hfree. set_solver.
  - split; [|apply Hitems]. simpl. intros Hk.
    destruct (decide (k = name)) as [->|Hne]; [unfold waiting; simpl; by rewrite Hq|].
    apply Hfree. set_solver.
Qed.

Lemma run_cons op ops m : run (op :: ops) m = run ops (step m op).
Proof. done. Qed.

Lemma wf_step m op : wf m → wf (step m op).
Proof. destruct op; [apply wf_aqquire | apply wf_release]. Qed.

Lemma wf_run ops m : wf m → wf (run ops m).
Proof.
  revert m. induction ops as [|op ops IH]; intros m Hwf; [done|].
  apply IH, wf_step, Hwf.
Qed.

Lemma tickets_of_app k l1 l2 : tickets_of k (l1 ++ l2) = tickets_of k l1 ++ tickets_of k l2.
Proof. unfold tickets_of. by rewrite filter_app, fmap_app. Qed.

Lemma tickets_of_one_eq k t : tickets_of k [(k, t)] = [t].
Proof. unfold tickets_of. rewrite filter_cons_True by done. done. Qed.

Lemma tickets_of_one_ne k name t : name ≠ k → tickets_of k [(name, t)] = [].
Proof. intros H. unfold tickets_of. rewrite filter_cons_False by done. done. Qed.


(** What [release] on key [k] shows to [k]. *)
Lemma view_release k m :
  wf m →
  view k (release k m) =
  match waiting k m with
  | next :: rest => (true, rest, granted k m ++ [item_ticket next])
  | [] => (false, [], granted k m)
  end.
Proof.
  intros Hwf. destruct (Hwf k) as [_ Hitems].
  rewrite release_unfold.
  unfold view, shift, holds, granted, waiting in *.
  destruct (queue m !! k) as [[|next rest]|] eqn:Hq; simpl in *.
  - rewrite Hq. simpl. rewrite bool_decide_eq_false_2 by set_solver. done.
  - rewrite lookup_insert_eq. simpl.
    assert (item_name next = k) as -> by (apply Hitems; set_solver).
    rewrite tickets_of_app, tickets_of_one_eq.
    rewrite bool_decide_eq_true_2 by set_solver. done.
  - rewrite Hq. simpl. rewrite bool_decide_eq_false_2 by set_solver. done.
Qed.

(** A call on another key shows nothing to [k]. *)
Lemma view_step_other k op m :
  wf m → op_name op ≠ k → view k (step m op) = view k m.
Proof.
  intros Hwf Hne. destruct op as [name t|name]; simpl in *.
  - destruct (decide (name ∈ locks m)) as [Hin|Hout].
    + destruct (read_cases name (queue m)) as [Hread|Hread];
        [by rewrite aqquire_refused|].
      rewrite aqquire_held by done. unfold view, holds, granted.
      rewrite waiting_push_ne by done. done.
    + rewrite aqquire_free by done. unfold view, holds, granted. simpl.
      rewrite tickets_of_app, tickets_of_one_ne, app_nil_r by done.
      do 2 f_equal. apply bool_decide_ext. set_solver.
  - destruct (Hwf name) as [_ Hitems]. rewrite release_unfold.
    unfold view, shift, holds, granted, waiting in *.
    destruct (queue m !! name) as [[|next rest]|] eqn:Hq; simpl in *.
    + do 2 f_equal. apply bool_decide_ext. set_solver.
    + assert (item_name next = name) as -> by (apply Hitems; set_solver).
      rewrite lookup_insert_ne by done.
      rewrite tickets_of_app, tickets_of_one_ne, app_nil_r by done.
      do 2 f_equal. apply bool_decide_ext. set_solver.
    + do 2 f_equal. apply bool_decide_ext. set_solver.
Qed.







End MutexFacts.

(* ===================================================================== *)
(** * Facts: instance registry and aggregate runtime                      *)
(* ===================================================================== *)

Section RegistryFacts.

Context {StateT PayloadT : Type}.

Local Abbreviation W := (World StateT PayloadT).

(** [create] always returns: the scope and the instance object are the next
    two identities, the state object the third. *)
Lemma create_spec (options : AggregateOptions StateT PayloadT) (id : string) (w : W) :
  ∃ w1,
    create options id w =
      (Ok {| self := Pos.succ (next w); scope := next w; inst_id := id; options := options |}, w1)
    ∧ aggregatesData w1 =
        <[Pos.succ (next w) := {| state := Pos.succ (Pos.succ (next w)); data_version := 0;
                                  recordedEvents := [] |}]> (aggregatesData w)
    ∧ aggregateDefinitions w1 = aggregateDefinitions w.
Proof. eexists. split; [reflexivity|]. split; reflexivity. Qed.

(** C10. A pop changes the pending events only.  For a live instance with
    record [data], [popRecordedEvents] returns the pending events and leaves
    the record with the same state, the same version and no pending event;
    every other record, the heap, the scopes, the definitions and the clock
    are untouched; an event recorded next is stamped with the version before
    the pop plus 1. *)
Theorem pop_changes_pending_only (w : W) (instance : ref)
    (data : AggregateData PayloadT) (event : IEvent PayloadT) :
  aggregatesData w !! instance = Some data →
  ∃ w1 w2,
    popRecordedEvents instance w = (Ok (recordedEvents data), w1)
    ∧ aggregatesData w1 !! instance =
        Some {| state := state data; data_version := data_version data;
                recordedEvents := [] |}
    ∧ (∀ other, other ≠ instance → aggregatesData w1 !! other = aggregatesData w !! other)
    ∧ heap w1 = heap w ∧ scopes w1 = scopes w
    ∧ aggregateDefinitions w1 = aggregateDefinitions w ∧ now w1 = now w
    ∧ recordEvent (Some instance) event w1 = (Ok tt, w2)
    ∧ aggregatesData w2 !! instance =
        Some {| state := state data; data_version := data_version data + 1;
                recordedEvents :=
                  [{| name := ev_name event; payload := ev_payload event;
                      occuredAt := now w; version := data_version data + 1 |}] |}.
Proof.
  intros Hdata. unfold popRecordedEvents. rewrite Hdata.
  eexists _, _. split; [reflexivity|].
  split; [simpl; apply lookup_insert_eq|].
  split; [intros other Hne; simpl; by apply lookup_insert_ne|].
  do 4 (split; [reflexivity|]).
  unfold recordEvent, lookupData. simpl. rewrite lookup_insert_eq. simpl.
  split; [reflexivity|]. simpl. by rewrite lookup_insert_eq.
Qed.

(** Nothing but [create] and [dispose] assigns the variable [instance]. *)
Lemma callHandler_scopes (handler : EventHandler StateT PayloadT) st event (w : W) :
  scopes (callHandler handler st event w).2 = scopes w.
Proof. unfold callHandler. by destruct (handler st event (heap w)) as [[|what] h]. Qed.

Lemma recordEvent_scopes instance (event : IEvent PayloadT) (w : W) :
  scopes (recordEvent instance event w).2 = scopes w.
Proof.
  unfold recordEvent. destruct instance as [r|]; [|done].
  by destruct (lookupData (Some r) w).
Qed.

Lemma popRecordedEvents_scopes instance (w : W) :
  scopes (popRecordedEvents instance w).2 = scopes w.
Proof. unfold popRecordedEvents. by destruct (aggregatesData w !! instance). Qed.

(** C2, as the code has it.  [dispose] sets the variable [instance] of the
    instance's scope to null and returns.  From then on, and as long as the
    variable is null, the registry operations made through the instance's
    own context fail with [InstanceDoesNotExistError]: [aggregateData]
    through [this.state()], and [recordEvent] through [recordThat] of an
    event that has a handler.  [recordEvent], [popRecordedEvents] and the
    handlers never assign the variable. *)
Theorem disposed_context_fails (w : W) (instance : AggregateInstance StateT PayloadT) :
  (dispose instance w).1 = Ok tt
  ∧ instanceVar instance (dispose instance w).2 = None
  ∧ (∀ w' : W, instanceVar instance w' = None →
       aggregateData (instanceVar instance w') w' = (Throw InstanceDoesNotExistError, w')
       ∧ this_state instance w' = (Throw InstanceDoesNotExistError, w')
       ∧ (∀ name payload, is_Some (handlerOf (options instance) name) →
            recordThat instance name payload w' = (Throw InstanceDoesNotExistError, w')))
  ∧ (∀ (w' : W) r event,
       scopes (recordEvent r event w').2 = scopes w'
       ∧ scopes (popRecordedEvents (self instance) w').2 = scopes w').
Proof.
  split; [reflexivity|]. split.
  { unfold instanceVar, dispose, modify. simpl. by rewrite lookup_insert_eq. }
  split.
  - intros w' Hnull. split; [by rewrite Hnull|]. split.
    + unfold this_state, stateCopy, closure_state, bind. by rewrite Hnull.
    + intros name payload [handler Hh]. unfold recordThat. rewrite Hh.
      unfold bind. by rewrite Hnull.
  - intros w' r event. split; [apply recordEvent_scopes | apply popRecordedEvents_scopes].
Qed.

End RegistryFacts.

Section ReplayFacts.

Context {StateT PayloadT : Type}.

Local Abbreviation W := (World StateT PayloadT).
Local Abbreviation Ev := (AggregateEvent PayloadT).

Lemma insertSorted_perm {A : Type} (compare : A → A → Z) (x : A) (l : list A) :
  insertSorted compare x l ≡ₚ x :: l.
Proof.
  induction l as [|y l IH]; simpl; [done|].
  case_decide; [|done]. rewrite IH. apply Permutation_swap.
Qed.

Lemma toSorted_perm {A : Type} (compare : A → A → Z) (l : list A) :
  toSorted compare l ≡ₚ l.
Proof.
  induction l as [|x l IH]; simpl; [done|].
  by rewrite insertSorted_perm, IH.
Qed.

Lemma insertSorted_hd (x y : Ev) (l : list Ev) :
  version y ≤ version x →
  HdRel Z.le (version y) (version <$> l) →
  HdRel Z.le (version y) (version <$> insertSorted byVersion x l).
Proof.
  intros Hyx Hhd. destruct l as [|z l]; simpl; [by constructor|].
  case_decide; simpl; [|by constructor].
  inversion Hhd; subst. by constructor.
Qed.

Lemma insertSorted_sorted (x : Ev) (l : list Ev) :
  Sorted Z.le (version <$> l) → Sorted Z.le (version <$> insertSorted byVersion x l).
Proof.
  induction l as [|y l IH]; simpl; intros Hs; [by repeat constructor|].
  apply Sorted_inv in Hs as [Hs Hhd].
  case_decide as Hcmp; simpl.
  - constructor; [by apply IH|]. apply insertSorted_hd; [|done].
    unfold byVersion in Hcmp. lia.
  - constructor; [by constructor|]. constructor. unfold byVersion in Hcmp. lia.
Qed.

Lemma toSorted_sorted (l : list Ev) : Sorted Z.le (version <$> toSorted byVersion l).
Proof.
  induction l as [|x l IH]; simpl; [constructor|]. by apply insertSorted_sorted.
Qed.

Lemma seqZ_sorted (m : Z) (n : nat) : Sorted Z.le (seqZ m (Z.of_nat n)).
Proof.
  revert m. induction n as [|n IH]; intros m; [rewrite seqZ_nil by lia; constructor|].
  rewrite seqZ_cons by lia.
  replace (Z.pred (Z.of_nat (S n))) with (Z.of_nat n) by lia.
  constructor; [apply IH|].
  destruct n as [|n]; [rewrite seqZ_nil by lia; constructor|].
  rewrite seqZ_cons by lia. constructor. lia.
Qed.

(** Sorting versions that are a rearrangement of [m, m+1, ...] gives that
    run. *)
Lemma toSorted_contiguous (l : list Ev) (m : Z) (n : nat) :
  version <$> l ≡ₚ seqZ m (Z.of_nat n) →
  version <$> toSorted byVersion l = seqZ m (Z.of_nat n).
Proof.
  intros Hperm. apply (Sorted_unique Z.le); [apply toSorted_sorted|apply seqZ_sorted|].
  by rewrite toSorted_perm.
Qed.

Lemma adjacentBreak_tail (a : Z) (versions : list Z) :
  adjacentBreak versions → adjacentBreak (a :: versions).
Proof. intros (i & x & y & H1 & H2 & H3). by exists (S i), x, y. Qed.

Lemma continousFrom_false (prev : Z) (versions : list Z) :
  continousFrom prev versions = false ↔ adjacentBreak (prev :: versions).
Proof.
  revert prev. induction versions as [|v rest IH]; intros prev; simpl.
  - split; [done|]. intros (i & a & b & _ & H2 & _). by destruct i.
  - case_decide as Hstep.
    + split; [|done]. intros _. exists 0%nat, prev, v. repeat split. lia.
    + rewrite IH. split; [apply adjacentBreak_tail|].
      intros (i & a & b & H1 & H2 & H3). destruct i as [|i].
      * simpl in *. simplify_eq. lia.
      * by exists i, a, b.
Qed.

(** [areEventsContinous] answers false exactly when some adjacent pair of
    versions does not increase by 1. *)
Lemma areEventsContinous_false (sortedEvents : list Ev) :
  areEventsContinous sortedEvents = false ↔ adjacentBreak (version <$> sortedEvents).
Proof.
  unfold areEventsContinous. destruct sortedEvents as [|e1 [|e2 rest]]; simpl.
  - split; [done|]. intros (i & a & b & H1 & _). by destruct i.
  - split; [done|]. intros (i & a & b & _ & H2 & _). by destruct i.
  - apply (continousFrom_false (version e1) (version e2 :: _)).
Qed.

Lemma seqZ_no_break (m : Z) (n : nat) : ¬ adjacentBreak (seqZ m (Z.of_nat n)).
Proof.
  intros (i & a & b & H1 & H2 & H3).
  apply lookup_seqZ in H1 as [-> _]. apply lookup_seqZ in H2 as [-> _]. lia.
Qed.

(** The loop of [loadAggregate] fails only for a missing handler or with
    what a handler threw. *)
Lemma applyEvents_throws options instance st (newEvents : list Ev) (w : W) e :
  (applyEvents options instance st newEvents w).1 = Throw e →
  (∃ event aggregate, e = HandlerNotDefined event aggregate) ∨ (∃ what, e = Foreign what).
Proof.
  revert w. induction newEvents as [|event rest IH]; intros w; simpl; [done|].
  destruct (handlerOf options (name event)) as [handler|]; [|intros [= <-]; eauto].
  unfold bind at 1, callHandler.
  destruct (handler st _ (heap w)) as [[|what] h]; [|intros [= <-]; eauto].
  unfold bind at 1, setVersion, modify. apply IH.
Qed.

Lemma default_last_cons (a b x : Z) (l : list Z) :
  default a (last (x :: l)) = default b (last (x :: l)).
Proof. revert x. induction l as [|y l IH]; intros x; [done|]. apply IH. Qed.

(** When every event is handled the loop ends normally, and the record's
    version is the version of the last event. *)
Lemma applyEvents_ok options instance st (newEvents : list Ev) (w : W) d :
  (∀ event, event ∈ newEvents → handled options event) →
  aggregatesData w !! instance = Some d →
  ∃ w', applyEvents options instance st newEvents w = (Ok tt, w')
        ∧ aggregatesData w' !! instance =
            Some {| state := state d;
                    data_version := default (data_version d) (last (version <$> newEvents));
                    recordedEvents := recordedEvents d |}.
Proof.
  revert w d. induction newEvents as [|event rest IH]; intros w d Hall Hd; simpl.
  - exists w. split; [done|]. by destruct d.
  - destruct (Hall event) as (handler & -> & Hret); [by left|].
    unfold bind at 1, callHandler.
    specialize (Hret st {| ev_name := name event; ev_payload := payload event |} (heap w)).
    destruct (handler st _ (heap w)) as [[|what] h]; [|done].
    unfold bind at 1, setVersion, modify.
    match goal with
    | |- ∃ w', applyEvents _ _ _ _ ?w2 = _ ∧ _ =>
        destruct (IH w2 {| state := state d; data_version := version event;
                           recordedEvents := recordedEvents d |})
          as (w' & Hrun & Hdata)
    end.
    + intros e He. apply Hall. by right.
    + simpl. by rewrite lookup_alter_eq, Hd.
    + exists w'. split; [exact Hrun|]. rewrite Hdata. simpl.
      destruct rest as [|e2 rest]; [done|]. do 2 f_equal.
      apply (default_last_cons _ _ (version e2)).
Qed.

(** [loadAggregate] up to its first test: the definition is found, the
    instance is created and its record carries the snapshot's version. *)
Lemma loadAggregate_unfold (w : W) aggregateName id (events : list Ev) snapshot options :
  aggregateDefinitions w !! aggregateName = Some options →
  ∃ (w1 : W) (st : ref),
    let instance := {| self := Pos.succ (next w); scope := next w;
                       inst_id := id; options := options |} in
    aggregatesData w1 !! Pos.succ (next w) =
      Some {| state := st; data_version := snapshotVersion snapshot; recordedEvents := [] |}
    ∧ loadAggregate aggregateName id events snapshot w =
        match events with
        | [] => (Ok instance, w1)
        | _ :: _ =>
            match opt_events options with
            | None => (Throw NoEventsDefined, w1)
            | Some _ =>
                match newEventsOf events snapshot with
                | [] => (Ok instance, w1)
                | first :: rest =>
                    if decide (version first ≠ snapshotVersion snapshot + 1)
                    then (Throw EventsDontStartAfterSnapshot, w1)
                    else if negb (areEventsContinous (first :: rest))
                    then (Throw EventsNotContinous, w1)
                    else (let! _ := applyEvents options (Pos.succ (next w)) st (first :: rest) in
                          ret instance) w1
                end
            end
        end.
Proof.
  intros Hdef. unfold loadAggregate, bind at 1, getAggregateDefinition. rewrite Hdef.
  unfold bind at 1. destruct (create_spec options id w) as (w0 & -> & Hdata & _).
  unfold bind at 1, aggregateData, lookupData. simpl self. rewrite Hdata, lookup_insert_eq.
  destruct snapshot as [s|].
  - unfold bind at 1, setSnapshot, modify. eexists _, _. split; cycle 1.
    + destruct events as [|e events]; [reflexivity|].
      destruct (opt_events options); [|reflexivity].
      destruct (newEventsOf (e :: events) (Some s)); [reflexivity|].
      case_decide; [reflexivity|]. destruct (negb _); reflexivity.
    + simpl. rewrite Hdata, lookup_alter_eq, lookup_insert_eq. reflexivity.
  - unfold bind at 1, ret at 1. eexists _, _. split; cycle 1.
    + destruct events as [|e events]; [reflexivity|].
      destruct (opt_events options); [|reflexivity].
      destruct (newEventsOf (e :: events) None); [reflexivity|].
      case_decide; [reflexivity|]. destruct (negb _); reflexivity.
    + rewrite Hdata, lookup_insert_eq. reflexivity.
Qed.

Lemma newEventsOf_nil (snapshot : option ISnapshot) :
  newEventsOf ([] : list Ev) snapshot = [].
Proof. by destruct snapshot. Qed.

Lemma last_seqZ (m : Z) (n : nat) : last (seqZ m (Z.of_nat (S n))) = Some (m + Z.of_nat n).
Proof. by rewrite seqZ_S, last_snoc. Qed.

(** C7, as the code orders its checks.  For a replay of a defined aggregate
    that declares event handlers, whose filtered and sorted event list is
    [first :: rest]: replay fails with the start-offset error exactly when
    the version of [first] is not the snapshot's version (0 without a
    snapshot) plus 1; it fails with the continuity error exactly when the
    start-offset check passes and some adjacent pair of the sorted versions
    does not increase by exactly 1. *)
Theorem replay_checks (w : W) (aggregateName id : string) (events : list Ev)
    (snapshot : option ISnapshot) (options : AggregateOptions StateT PayloadT)
    (handlers : gmap string (EventHandler StateT PayloadT)) (first : Ev) (rest : list Ev) :
  aggregateDefinitions w !! aggregateName = Some options →
  opt_events options = Some handlers →
  newEventsOf events snapshot = first :: rest →
  let result := (loadAggregate aggregateName id events snapshot w).1 in
  (result = Throw EventsDontStartAfterSnapshot
     ↔ version first ≠ snapshotVersion snapshot + 1)
  ∧ (result = Throw EventsNotContinous
     ↔ version first = snapshotVersion snapshot + 1
       ∧ adjacentBreak (version <$> first :: rest)).
Proof.
  intros Hdef Hhandlers Hnew result.
  destruct (loadAggregate_unfold w aggregateName id events snapshot options Hdef)
    as (w1 & st & Hu).
  cbv zeta in Hu. destruct Hu as [_ Hload].
  unfold result. rewrite Hload. clear result Hload.
  destruct events as [|e events]; [by rewrite newEventsOf_nil in Hnew|].
  rewrite Hhandlers, Hnew.
  destruct (decide (version first ≠ snapshotVersion snapshot + 1)) as [Hstart|Hstart].
  { simpl. split; [done|]. split; [done|]. intros [? _]. done. }
  apply dec_stable in Hstart.
  destruct (areEventsContinous (first :: rest)) eqn:Hcont.
  - simpl negb. cbv iota. unfold bind.
    destruct (applyEvents options (Pos.succ (next w)) st (first :: rest) w1)
      as [[[]|e'] w2] eqn:Hrun; cbn [fst ret].
    + split; [split; [done|intros ?; done]|]. split; [done|].
      intros [_ Hbreak]. apply areEventsContinous_false in Hbreak. congruence.
    + assert ((applyEvents options (Pos.succ (next w)) st (first :: rest) w1).1 = Throw e')
        as Hthrow by (by rewrite Hrun).
      apply applyEvents_throws in Hthrow as [(ev & ag & ->)|(what & ->)].
      * split; [split; [done|intros ?; done]|]. split; [done|].
        intros [_ Hbreak]. apply areEventsContinous_false in Hbreak. congruence.
      * split; [split; [done|intros ?; done]|]. split; [done|].
        intros [_ Hbreak]. apply areEventsContinous_false in Hbreak. congruence.
  - simpl. split; [split; [done|intros ?; done]|]. split; [|done].
    intros _. split; [done|]. by apply (areEventsContinous_false (first :: rest)).
Qed.

Lemma elem_of_newEventsOf_kept (event : Ev) events snapshot :
  event ∈ newEventsOf events snapshot → event ∈ keptEvents events snapshot.
Proof. unfold newEventsOf. by rewrite toSorted_perm. Qed.

(** C8. Replaying contiguous events gives the version of the last one.  For
    a defined aggregate that declares event handlers (when any event is
    supplied) and whose handlers exist and return for the events kept: if
    the versions of the events kept (those above the snapshot's version,
    all of them without a snapshot) are, in any order, the [k] versions that
    follow the snapshot's version (0 without a snapshot), then
    [loadAggregate] returns an instance whose record has that version plus
    [k]; so [n] events from version 1 without a snapshot give [n], and a
    snapshot at [s] with no later event gives [s]. *)
Theorem replay_version (w : W) (aggregateName id : string) (events : list Ev)
    (snapshot : option ISnapshot) (options : AggregateOptions StateT PayloadT) (k : nat) :
  aggregateDefinitions w !! aggregateName = Some options →
  version <$> keptEvents events snapshot
    ≡ₚ seqZ (snapshotVersion snapshot + 1) (Z.of_nat k) →
  (events = [] ∨ is_Some (opt_events options)) →
  (∀ event, event ∈ keptEvents events snapshot → handled options event) →
  ∃ instance w',
    loadAggregate aggregateName id events snapshot w = (Ok instance, w')
    ∧ data_version <$> aggregatesData w' !! self instance
      = Some (snapshotVersion snapshot + Z.of_nat k).
Proof.
  intros Hdef Hperm Hevents Hall.
  destruct (loadAggregate_unfold w aggregateName id events snapshot options Hdef)
    as (w1 & st & Hu).
  cbv zeta in Hu. destruct Hu as [Hdata ->].
  pose proof (toSorted_contiguous _ _ _ Hperm) as Hvs.
  fold (newEventsOf events snapshot) in Hvs.
  destruct events as [|e events].
  { rewrite newEventsOf_nil in Hvs. destruct k as [|k].
    - eexists _, w1. split; [reflexivity|]. simpl (self _). rewrite Hdata. simpl.
      f_equal. lia.
    - rewrite seqZ_cons in Hvs by lia. done. }
  destruct Hevents as [|[handlers Hopt]]; [done|]. rewrite Hopt.
  destruct (newEventsOf (e :: events) snapshot) as [|first rest] eqn:Hnew.
  { destruct k as [|k].
    - eexists _, w1. split; [reflexivity|]. simpl (self _). rewrite Hdata. simpl.
      f_equal. lia.
    - rewrite seqZ_cons in Hvs by lia. done. }
  destruct k as [|k]; [by rewrite seqZ_nil in Hvs by lia|].
  assert (version first = snapshotVersion snapshot + 1) as Hfirst.
  { rewrite seqZ_cons in Hvs by lia. by injection Hvs as -> _. }
  rewrite decide_False by (intros ?; done).
  destruct (areEventsContinous (first :: rest)) eqn:Hcont; cycle 1.
  { apply areEventsContinous_false in Hcont. rewrite Hvs in Hcont.
    by apply seqZ_no_break in Hcont. }
  simpl negb. cbv iota.
  assert (∀ event, event ∈ first :: rest → handled options event) as Hkept.
  { intros event Hin. apply Hall, elem_of_newEventsOf_kept. by rewrite Hnew. }
  destruct (applyEvents_ok options (Pos.succ (next w)) st (first :: rest) w1 _ Hkept Hdata)
    as (w2 & Hrun & Hdata2).
  eexists _, w2. unfold bind. rewrite Hrun. split; [done|].
  simpl (self _). rewrite Hdata2, Hvs, last_seqZ. simpl.
  f_equal. lia.
Qed.

End ReplayFacts.

(* ===================================================================== *)
(** * Facts: repository                                                   *)
(* ===================================================================== *)

Section RepositoryFacts.

Context {StateT PayloadT ExtT : Type}.

Local Abbreviation SysT := (Sys StateT PayloadT ExtT).
Local Abbreviation Repo := (Repository PayloadT ExtT).
Local Abbreviation Inst := (AggregateInstance StateT PayloadT).

Lemma save_result (r : Repo) (aggregate : Inst) (s : SysT) :
  (save r aggregate s).1 = (save_body r aggregate s).1.
Proof. unfold save, usingLock. by destruct (save_body r aggregate s). Qed.

Lemma save_calls (r : Repo) (aggregate : Inst) (s : SysT) :
  calls (save r aggregate s).2 = calls (save_body r aggregate s).2.
Proof. unfold save, usingLock. by destruct (save_body r aggregate s). Qed.

(** [save] up to [if (!recordedEvents.length) return], for an instance with
    pending events: they are popped and the definition is looked up. *)
Lemma save_body_pending (r : Repo) (aggregate : Inst) (s : SysT) data first rest :
  aggregatesData (world s) !! self aggregate = Some data →
  recordedEvents data = first :: rest →
  ∃ w0 : World StateT PayloadT,
    aggregatesData w0 !! self aggregate =
      Some {| state := state data; data_version := data_version data;
              recordedEvents := [] |}
    ∧ ∀ r : Repo,
        save_body r aggregate s =
          match aggregateDefinitions (world s) !! aggregateName aggregate with
          | Some definition =>
              saveRecorded r aggregate definition first rest (set_world w0 s)
          | None =>
              (Throw (AggregateNotDefined (aggregateName aggregate)), set_world w0 s)
          end.
Proof.
  intros Hdata Hpending.
  exists (set_aggregatesData
            (<[self aggregate := {| state := state data; data_version := data_version data;
                                    recordedEvents := [] |}]> (aggregatesData (world s)))
            (world s)).
  split; [cbn [aggregatesData set_aggregatesData]; apply lookup_insert_eq|].
  intros r'. unfold save_body, bind at 1, liftW at 1, popRecordedEvents.
  rewrite Hdata, Hpending.
  unfold bind at 1, liftW at 1, getAggregateDefinition.
  cbn [world set_world aggregateDefinitions set_aggregatesData].
  by destruct (aggregateDefinitions (world s) !! aggregateName aggregate).
Qed.

Lemma save_world (r : Repo) (aggregate : Inst) (s : SysT) :
  world (save r aggregate s).2 = world (save_body r aggregate s).2.
Proof. unfold save, usingLock. by destruct (save_body r aggregate s). Qed.

(** [save] on an instance without a record: [popRecordedEvents] throws. *)
Lemma save_body_absent (r : Repo) (aggregate : Inst) (s : SysT) :
  aggregatesData (world s) !! self aggregate = None →
  save_body r aggregate s = (Throw InstanceDoesNotExistError, s).
Proof.
  intros Hdata. unfold save_body, bind at 1, liftW at 1, popRecordedEvents.
  rewrite Hdata. by destruct s.
Qed.

(** [save] on an instance without pending events: nothing but the pop and
    the lookup of the definition happens. *)
Lemma save_body_idle (r : Repo) (aggregate : Inst) (s : SysT) data :
  aggregatesData (world s) !! self aggregate = Some data →
  recordedEvents data = [] →
  save_body r aggregate s =
    (match aggregateDefinitions (world s) !! aggregateName aggregate with
     | Some _ => Ok tt
     | None => Throw (AggregateNotDefined (aggregateName aggregate))
     end,
     set_world
       (set_aggregatesData
          (<[self aggregate := {| state := state data; data_version := data_version data;
                                  recordedEvents := [] |}]> (aggregatesData (world s)))
          (world s)) s).
Proof.
  intros Hdata Hpending. unfold save_body, bind at 1, liftW at 1, popRecordedEvents.
  rewrite Hdata, Hpending.
  unfold bind at 1, liftW at 1, getAggregateDefinition.
  cbn [world set_world aggregateDefinitions set_aggregatesData].
  by destruct (aggregateDefinitions (world s) !! aggregateName aggregate).
Qed.

(** [emit] never throws: it is an asynchronous function. *)
Lemma emit_async (listeners : list (Listener PayloadT ExtT)) events x what :
  (emit listeners events x).1 ≠ SyncThrow what.
Proof.
  revert x. induction listeners as [|l rest IH]; intros x; simpl; [done|].
  destruct (l events x) as [[[]|e|e] x']; simpl; [apply IH|done..].
Qed.

Ltac run_save :=
  unfold saveRecorded, bind, external, storeCall, await, detached, throw, ret, modify, liftW,
         aggregateData, lookupData;
  cbn [store eventsRecorded eventsPublished emit];
  repeat (cbn [fst snd calls ext world unhandled mutex set_world]; case_match; simplify_eq).

Ltac in_calls H :=
  repeat (rewrite ?elem_of_app, ?elem_of_cons, ?elem_of_nil in H).

Ltac give_calls :=
  eexists; split;
    [cbn [snd calls]; first [symmetry; apply app_nil_r | rewrite <- ?app_assoc; reflexivity]|].

Lemma emit_first_failure (before after : list (Listener PayloadT ExtT))
    (failing : Listener PayloadT ExtT) events x x1 what :
  emit before events x = (Value tt, x1) →
  failsWith (failing events x1) what →
  ∃ x2, emit (before ++ failing :: after) events x = (Rejection what, x2).
Proof.
  revert x. induction before as [|l before IH]; intros x Hbefore Hfails; simpl in *.
  - simplify_eq. destruct Hfails as [Hf|Hf];
      destruct (failing events x1) as [[[]|e|e] x2]; simpl in Hf; simplify_eq; eauto.
  - destruct (l events x) as [[[]|e|e] x']; [by apply IH|done..].
Qed.

(** C5. A failing subscriber of the before-persist notification aborts the
    save.  For a save of an instance of a defined aggregate with pending
    events [first :: rest]: if, the subscribers of [eventsRecorded] being
    called in order, the ones before [failing] return and [failing] fails
    with [what] (it throws, or its promise is rejected), then [save] fails
    with [what] and makes no call on the store: neither [saveEvents] nor
    [saveSnapshot] is invoked. *)
Theorem before_persist_failure (r : Repo) (aggregate : Inst) (s : SysT)
    (data : AggregateData PayloadT) (first : AggregateEvent PayloadT)
    (rest : list (AggregateEvent PayloadT)) (definition : AggregateOptions StateT PayloadT)
    (before after : list (Listener PayloadT ExtT)) (failing : Listener PayloadT ExtT)
    (x1 : ExtT) (what : string) :
  let streamEvents :=
    aggregateEventToStreamEvent (inst_id aggregate) (aggregateName aggregate)
      <$> first :: rest in
  aggregatesData (world s) !! self aggregate = Some data →
  recordedEvents data = first :: rest →
  aggregateDefinitions (world s) !! aggregateName aggregate = Some definition →
  eventsRecorded r = before ++ failing :: after →
  emit before streamEvents (ext s) = (Value tt, x1) →
  failsWith (failing streamEvents x1) what →
  (save r aggregate s).1 = Throw (Foreign what)
  ∧ calls (save r aggregate s).2 = calls s.
Proof.
  intros streamEvents Hdata Hpending Hdef Hlisteners Hbefore Hfails.
  rewrite save_result, save_calls.
  destruct (save_body_pending r aggregate s data first rest Hdata Hpending)
    as (w0 & _ & Hbody).
  rewrite Hbody, Hdef. clear Hbody.
  destruct (emit_first_failure before after failing streamEvents (ext s) x1 what
              Hbefore Hfails) as (x2 & Hemit).
  unfold saveRecorded, bind, external. fold streamEvents.
  cbn [ext set_world]. by rewrite Hlisteners, Hemit.
Qed.

(** C6. A failing subscriber of the after-persist notification never
    reaches the caller.  Whatever the subscribers of [eventsPublished] do,
    the result of [save], its calls on the store and the registry are those
    of the same save with no such subscriber; and once [saveEvents] has
    returned (and [saveSnapshot], when the store has it, did not throw),
    [save] completes normally. *)
Theorem after_persist_failure_swallowed (r : Repo) (aggregate : Inst) (s : SysT) :
  let quiet := {| store := store r; eventsRecorded := eventsRecorded r;
                  eventsPublished := [] |} in
  (save r aggregate s).1 = (save quiet aggregate s).1
  ∧ calls (save r aggregate s).2 = calls (save quiet aggregate s).2
  ∧ world (save r aggregate s).2 = world (save quiet aggregate s).2
  ∧ ∃ made,
      calls (save r aggregate s).2 = calls s ++ made
      ∧ ∀ events,
          SaveEvents events (Value tt) ∈ made →
          (∀ definition id snapshot what,
             SaveSnapshot definition id snapshot (SyncThrow what) ∉ made) →
          (save r aggregate s).1 = Ok tt.
Proof.
  intros quiet. rewrite !save_result, !save_calls, !save_world.
  destruct (aggregatesData (world s) !! self aggregate) as [data|] eqn:Hdata.
  2:{ rewrite (save_body_absent r aggregate s Hdata), (save_body_absent quiet aggregate s Hdata).
      do 3 (split; [reflexivity|]). exists []. split; [symmetry; apply app_nil_r|].
      intros events Hin. by apply elem_of_nil in Hin. }
  destruct (recordedEvents data) as [|first rest] eqn:Hpending.
  { rewrite (save_body_idle r aggregate s data Hdata Hpending),
            (save_body_idle quiet aggregate s data Hdata Hpending).
    do 3 (split; [reflexivity|]).
    destruct (aggregateDefinitions (world s) !! aggregateName aggregate);
      (exists []; split; [symmetry; apply app_nil_r|]);
      intros events Hin; by apply elem_of_nil in Hin. }
  destruct (save_body_pending r aggregate s data first rest Hdata Hpending)
    as (w0 & Hw0 & Hbody).
  rewrite !Hbody. clear Hbody.
  change (calls s) with (calls (set_world w0 s)).
  change w0 with (world (set_world w0 s)) in Hw0.
  generalize dependent (set_world w0 s). intros s0 Hs0.
  destruct (aggregateDefinitions (world s) !! aggregateName aggregate) as [definition|].
  2:{ do 3 (split; [reflexivity|]). exists []. split; [symmetry; apply app_nil_r|].
      intros events Hin. by apply elem_of_nil in Hin. }
  subst quiet. run_save.
  all: try (exfalso; congruence).
  all: try (exfalso;
            match goal with
            | H : emit _ _ _ = (SyncThrow _, _) |- _ =>
                apply (f_equal fst) in H; exact (emit_async _ _ _ _ H)
            end).
  all: do 3 (split; [reflexivity|]); give_calls.
  all: intros events Hin Hnothrow; cbn [fst]; try reflexivity.
  all: try (in_calls Hin; naive_solver).
  all: exfalso; eapply Hnothrow; repeat (rewrite ?elem_of_app, ?elem_of_cons); eauto 10.
Qed.

(** The key of [save] is built from the aggregate's name and the source of
    the method [id]; the identifier of the instance does not enter it. *)
Lemma save_lock_key_same_name (a b : Inst) :
  aggregateName a = aggregateName b → save_lock_key a = save_lock_key b.
Proof. unfold save_lock_key, prop_id. by intros ->. Qed.

End RepositoryFacts.

(* ===================================================================== *)
(** * More facts: named mutex                                             *)
(* ===================================================================== *)

Module MutexUse.
Import Mutex MutexFacts.

(** X1. A free key has no waiter: after any history of calls on a new
    mutex, a key that is not locked has an empty queue, so nobody waits for
    a lock that nobody holds. *)
Theorem free_key_has_no_waiter (ops : list Op) (k : string) :
  holds k (run ops empty) = false → waiters k (run ops empty) = [].
Proof.
  intros Hfree. destruct (wf_run ops empty wf_empty k) as [Hnone _].
  unfold waiters. rewrite Hnone; [done|].
  unfold holds in Hfree. by apply bool_decide_eq_false_1 in Hfree.
Qed.

Lemma elem_of_granted (k : string) (ticket : Ticket) (m : t) :
  ticket ∈ granted k m ↔ (k, ticket) ∈ resolved m.
Proof.
  unfold granted, tickets_of. rewrite list_elem_of_fmap. split.
  - intros ([name t'] & -> & Hin). apply list_elem_of_filter in Hin as [Hk Hin].
    simpl in *. by subst.
  - intros Hin. exists (k, ticket). split; [done|]. by apply list_elem_of_filter.
Qed.

Lemma granted_snoc (k name : string) (ticket : Ticket) (m : t) q lk :
  granted k {| queue := q; locks := lk; resolved := resolved m ++ [(name, ticket)] |}
  = granted k m ++ (if decide (name = k) then [ticket] else []).
Proof.
  unfold granted. simpl. rewrite tickets_of_app. f_equal. case_decide as Hk.
  - subst. apply tickets_of_one_eq.
  - by apply tickets_of_one_ne.
Qed.

Lemma kept_empty : kept empty [] [].
Proof.
  split; [apply wf_empty|]. split; [by intros p Hp%elem_of_nil|].
  split; [by intros k ticket Hin%elem_of_nil|].
  split; [intros k; constructor|]. split; [by intros p Hp%elem_of_nil|].
  intros k. unfold holds. rewrite bool_decide_eq_false_2 by set_solver.
  by intros ticket Hin%elem_of_nil.
Qed.

(** A call of [aqquire] with a new promise keeps the discipline. *)
Lemma kept_acquire (m : t) (seen gone : list (string * Ticket)) (name : string)
    (ticket : Ticket) :
  kept m seen gone →
  (name, ticket) ∉ seen →
  kept (aqquire name ticket m) ((name, ticket) :: seen) gone.
Proof.
  intros (Hwf & Hseen & Hqueued & Hnodup & Hgone & Hholder) Hfresh.
  pose proof (wf_aqquire name ticket m Hwf) as Hwf'.
  assert (∀ k, k ≠ name →
            holds k (aqquire name ticket m) = holds k m
            ∧ waiters k (aqquire name ticket m) = waiters k m
            ∧ granted k (aqquire name ticket m) = granted k m) as Hother.
  { intros k Hne.
    pose proof (view_step_other k (Aqquire name ticket) m Hwf) as Hv.
    unfold view, waiters in *. simpl in Hv. by injection (Hv (not_eq_sym Hne)) as -> -> ->. }
  destruct (decide (name ∈ locks m)) as [Hin|Hout].
  - destruct (read_cases name (queue m)) as [Hread|Hread].
    { rewrite aqquire_refused by done.
      split; [done|]. split; [intros p Hp; right; by apply Hseen|].
      split; [intros k t' Ht'; destruct (Hqueued k t' Ht'); split; [by right|done]|].
      done. }
    assert (resolved (aqquire name ticket m) = resolved m) as Hres
      by (by rewrite aqquire_held).
    assert (holds name (aqquire name ticket m) = holds name m
            ∧ waiters name (aqquire name ticket m) = waiters name m ++ [ticket]
            ∧ granted name (aqquire name ticket m) = granted name m) as Hsame.
    { rewrite aqquire_held by done. unfold holds, waiters, granted. simpl.
      rewrite waiting_push_eq. by rewrite fmap_app. }
    split; [done|]. rewrite Hres.
    split; [intros p Hp; right; by apply Hseen|].
    split.
    { intros k t' Ht'. destruct (decide (k = name)) as [->|Hne].
      - destruct Hsame as (_ & Hw & _). rewrite Hw in Ht'.
        apply elem_of_app in Ht' as [Ht'|Ht'].
        + destruct (Hqueued name t' Ht'). split; [by right|done].
        + apply list_elem_of_singleton in Ht' as ->. split; [by left|].
          intros Hres'. by apply Hfresh, Hseen.
      - destruct (Hother k Hne) as (_ & Hw & _). rewrite Hw in Ht'.
        destruct (Hqueued k t' Ht'). split; [by right|done]. }
    split.
    { intros k. destruct (decide (k = name)) as [->|Hne].
      - destruct Hsame as (_ & -> & _). apply NoDup_app. split; [apply Hnodup|].
        split; [|apply NoDup_singleton].
        intros t' Ht' ->%list_elem_of_singleton. by apply Hfresh, (Hqueued name).
      - destruct (Hother k Hne) as (_ & -> & _). apply Hnodup. }
    split; [done|].
    intros k. specialize (Hholder k). destruct (decide (k = name)) as [->|Hne].
    + destruct Hsame as (-> & _ & ->). done.
    + destruct (Hother k Hne) as (-> & _ & ->). done.
  - assert (resolved (aqquire name ticket m) = resolved m ++ [(name, ticket)]) as Hres
      by (by rewrite aqquire_free).
    assert (holds name (aqquire name ticket m) = true
            ∧ waiters name (aqquire name ticket m) = waiters name m
            ∧ granted name (aqquire name ticket m) = granted name m ++ [ticket]) as Hsame.
    { rewrite aqquire_free by done. split; [apply bool_decide_eq_true_2; set_solver|].
      split; [done|]. rewrite granted_snoc. by rewrite decide_True. }
    assert (∀ k, waiters k (aqquire name ticket m) = waiters k m) as Hwaiters
      by (by rewrite aqquire_free).
    split; [done|]. rewrite Hres.
    split.
    { intros p [Hp|Hp]%elem_of_app; [right; by apply Hseen|].
      apply list_elem_of_singleton in Hp as ->. by left. }
    split.
    { intros k t' Ht'. rewrite Hwaiters in Ht'. destruct (Hqueued k t' Ht') as [Hs Hr].
      split; [by right|]. intros [Hin|Hin]%elem_of_app; [done|].
      apply list_elem_of_singleton in Hin. by simplify_eq. }
    split; [intros k; rewrite Hwaiters; apply Hnodup|].
    split; [intros p Hp; apply elem_of_app; left; by apply Hgone|].
    intros k. specialize (Hholder k). destruct (decide (k = name)) as [->|Hne].
    + destruct Hsame as (-> & _ & ->).
      assert (holds name m = false) as Hfree by (by apply bool_decide_eq_false_2).
      rewrite Hfree in Hholder.
      exists (granted name m), ticket. split; [done|].
      split; [intros Hin; by apply Hfresh, Hseen, Hgone|]. done.
    + destruct (Hother k Hne) as (-> & _ & ->). done.
Qed.

(** Disposing once of a lock object whose promise was resolved keeps the
    discipline; the lock object is the one of the holder. *)
Lemma kept_dispose (m : t) (seen gone : list (string * Ticket)) (name : string)
    (ticket : Ticket) :
  kept m seen gone →
  (name, ticket) ∈ resolved m →
  (name, ticket) ∉ gone →
  kept (release name m) seen ((name, ticket) :: gone).
Proof.
  intros (Hwf & Hseen & Hqueued & Hnodup & Hgone & Hholder) Hres Hnew.
  pose proof (wf_release name m Hwf) as Hwf'.
  assert (∀ k, k ≠ name →
            holds k (release name m) = holds k m
            ∧ waiters k (release name m) = waiters k m
            ∧ granted k (release name m) = granted k m) as Hother.
  { intros k Hne.
    pose proof (view_step_other k (Release name) m Hwf) as Hv.
    unfold view, waiters in *. simpl in Hv. by injection (Hv (not_eq_sym Hne)) as -> -> ->. }
  pose proof (view_release name m Hwf) as Hsame. unfold view in Hsame.
  assert (∃ before, holds name m = true ∧ granted name m = before ++ [ticket]
                    ∧ ∀ earlier, earlier ∈ before → (name, earlier) ∈ gone)
    as (before & Hheld & Hgranted & Hbefore).
  { specialize (Hholder name). destruct (holds name m).
    - destruct Hholder as (before & holder & Hg & Hout & Hb). exists before.
      split; [done|]. split; [|done]. rewrite Hg. do 2 f_equal.
      apply elem_of_granted in Hres. rewrite Hg in Hres.
      apply elem_of_app in Hres as [Hin|Hin]; [by apply Hb in Hin|].
      by apply list_elem_of_singleton in Hin.
    - exfalso. by apply Hnew, Hholder, elem_of_granted. }
  assert (resolved (release name m)
          = resolved m ++ match waiting name m with
                         | next :: _ => [(name, item_ticket next)]
                         | [] => []
                         end) as Hresolved.
  { destruct (Hwf name) as [_ Hitems]. rewrite release_unfold. unfold shift, waiting in *.
    destruct (queue m !! name) as [[|next rest]|]; simpl; [by rewrite app_nil_r| |by rewrite app_nil_r].
    rewrite (Hitems next); [done|]. simpl. by left. }
  split; [done|].
  destruct (waiting name m) as [|next rest] eqn:Hwaiting.
  - injection Hsame as Hh Hw Hg. rewrite app_nil_r in Hresolved. rewrite Hresolved.
    split; [done|].
    split.
    { intros k t' Ht'. apply Hqueued. destruct (decide (k = name)) as [->|Hne].
      - unfold waiters in Ht'. rewrite Hw in Ht'. by apply elem_of_nil in Ht'.
      - destruct (Hother k Hne) as (_ & Hw' & _). by rewrite Hw' in Ht'. }
    split.
    { intros k. destruct (decide (k = name)) as [->|Hne].
      - unfold waiters. rewrite Hw. constructor.
      - destruct (Hother k Hne) as (_ & -> & _). apply Hnodup. }
    split; [intros p [->|Hp]%elem_of_cons; [done|by apply Hgone]|].
    intros k. destruct (decide (k = name)) as [->|Hne].
    + rewrite Hh, Hg, Hgranted.
      intros t' [Hin|Hin]%elem_of_app; [right; by apply Hbefore|].
      apply list_elem_of_singleton in Hin as ->. by left.
    + destruct (Hother k Hne) as (-> & _ & ->). specialize (Hholder k).
      destruct (holds k m).
      * destruct Hholder as (b & holder & Hg' & Hout & Hb). exists b, holder.
        split; [done|]. split.
        -- intros [Heq|Hin]%elem_of_cons; [by simplify_eq|done].
        -- intros earlier Hin. right. by apply Hb.
      * intros t' Hin. right. by apply Hholder.
  - injection Hsame as Hh Hw Hg. rewrite Hresolved.
    assert (item_ticket next ∈ waiters name m) as Hnext.
    { unfold waiters. rewrite Hwaiting. simpl. by left. }
    destruct (Hqueued name (item_ticket next) Hnext) as [Hnext_seen Hnext_new].
    split.
    { intros p [Hp|Hp]%elem_of_app; [by apply Hseen|].
      by apply list_elem_of_singleton in Hp as ->. }
    split.
    { intros k t' Ht'. destruct (decide (k = name)) as [->|Hne].
      - unfold waiters in Ht'. rewrite Hw in Ht'.
        assert (t' ∈ waiters name m) as Hin.
        { unfold waiters. rewrite Hwaiting. simpl. by right. }
        destruct (Hqueued name t' Hin) as [Hs Hr]. split; [done|].
        intros [Hold|Hlast]%elem_of_app; [done|].
        apply list_elem_of_singleton in Hlast. injection Hlast as ->.
        specialize (Hnodup name). unfold waiters in Hnodup. rewrite Hwaiting in Hnodup.
        simpl in Hnodup. apply NoDup_cons in Hnodup as [Hnotin _]. done.
      - destruct (Hother k Hne) as (_ & Hw' & _). rewrite Hw' in Ht'.
        destruct (Hqueued k t' Ht') as [Hs Hr]. split; [done|].
        intros [Hold|Hlast]%elem_of_app; [done|].
        apply list_elem_of_singleton in Hlast. by simplify_eq. }
    split.
    { intros k. destruct (decide (k = name)) as [->|Hne].
      - unfold waiters. rewrite Hw. specialize (Hnodup name). unfold waiters in Hnodup.
        rewrite Hwaiting in Hnodup. simpl in Hnodup. by apply NoDup_cons in Hnodup as [_ ?].
      - destruct (Hother k Hne) as (_ & -> & _). apply Hnodup. }
    split.
    { intros p [->|Hp]%elem_of_cons; apply elem_of_app; left; [done|by apply Hgone]. }
    intros k. destruct (decide (k = name)) as [->|Hne].
    + rewrite Hh, Hg, Hgranted. exists (before ++ [ticket]), (item_ticket next).
      split; [done|]. split.
      * intros [Heq|Hin]%elem_of_cons; [by simplify_eq|]. by apply Hnext_new, Hgone.
      * intros earlier [Hin|Hin]%elem_of_app; [right; by apply Hbefore|].
        apply list_elem_of_singleton in Hin as ->. by left.
    + destruct (Hother k Hne) as (-> & _ & ->). specialize (Hholder k).
      destruct (holds k m).
      * destruct Hholder as (b & holder & Hg' & Hout & Hb). exists b, holder.
        split; [done|]. split.
        -- intros [Heq|Hin]%elem_of_cons; [by simplify_eq|done].
        -- intros earlier Hin. right. by apply Hb.
      * intros t' Hin. right. by apply Hholder.
Qed.

Lemma kept_run (calls : list Call) (m : t) (seen gone : list (string * Ticket)) :
  kept m seen gone →
  disciplined m seen gone calls = true →
  ∃ seen' gone',
    kept (run (ops_of calls) m) seen' gone'
    ∧ ∀ p, p ∈ gone' ↔ p ∈ disposals calls ∨ p ∈ gone.
Proof.
  revert m seen gone. induction calls as [|call calls IH]; intros m seen gone Hkept Hd.
  - exists seen, gone. split; [done|]. intros p. split; [by right|].
    by intros [Hp%elem_of_nil|Hp].
  - destruct call as [name ticket|name ticket]; simpl in Hd.
    + apply andb_prop in Hd as [Hfresh Hd]. apply bool_decide_eq_true_1 in Hfresh.
      destruct (IH _ _ _ (kept_acquire _ _ _ _ _ Hkept Hfresh) Hd)
        as (seen' & gone' & Hkept' & Hgone').
      exists seen', gone'. split; [exact Hkept'|]. exact Hgone'.
    + apply andb_prop in Hd as [Hd' Hd]. apply andb_prop in Hd' as [Hres Hnew].
      apply bool_decide_eq_true_1 in Hres. apply bool_decide_eq_true_1 in Hnew.
      destruct (IH _ _ _ (kept_dispose _ _ _ _ _ Hkept Hres Hnew) Hd)
        as (seen' & gone' & Hkept' & Hgone').
      exists seen', gone'. split; [exact Hkept'|].
      intros p. rewrite Hgone'. simpl. rewrite !elem_of_cons. tauto.
Qed.

Lemma filter_none {A : Type} (P : A → Prop) `{!∀ x, Decision (P x)} (l : list A) :
  (∀ x, x ∈ l → ¬ P x) → filter P l = [].
Proof.
  induction l as [|x l IH]; intros Hall; [done|].
  rewrite filter_cons_False by (apply Hall; by left).
  apply IH. intros y Hy. apply Hall. by right.
Qed.

(** X2. Mutual exclusion.  Take any history on a new mutex in which every
    [aqquire] builds a new promise and every lock object is disposed of at
    most once and only after its promise was resolved, as [using lock] with
    [await lock.promise] does for a promise that is resolved.  Then after
    every such history a key has at most one holder, that is, one granted
    acquisition whose lock object was not disposed of: exactly one while
    the key is locked, and it is the one granted last; none while the key
    is free. *)
Theorem one_holder_per_key (calls : list Call) (k : string) :
  disciplined empty [] [] calls = true →
  let m := run (ops_of calls) empty in
  if holds k m
  then ∃ ticket, holders k calls = [ticket] ∧ last (granted k m) = Some ticket
  else holders k calls = [].
Proof.
  intros Hd m.
  destruct (kept_run calls empty [] [] kept_empty Hd)
    as (seen' & gone' & (_ & _ & _ & _ & _ & Hholder) & Hgone').
  assert (∀ p, p ∈ gone' ↔ p ∈ disposals calls) as Hgone.
  { intros p. rewrite Hgone'. split; [by intros [?|?%elem_of_nil]|by left]. }
  specialize (Hholder k). fold m in Hholder. unfold holders. fold m.
  destruct (holds k m).
  - destruct Hholder as (before & ticket & Hg & Hout & Hbefore). exists ticket.
    rewrite Hg, filter_app, last_snoc. split; [|done].
    rewrite filter_none.
    2:{ intros t' Hin Hnot. apply Hnot, Hgone. by apply Hbefore. }
    rewrite filter_cons_True; [done|]. intros Hin. by apply Hout, Hgone.
  - apply filter_none. intros ticket Hin Hnot. apply Hnot, Hgone. by apply Hholder.
Qed.

Lemma serve_waiters (k : string) (n : nat) (m : t) :
  wf m →
  (n ≤ length (waiters k m))%nat →
  granted k (run (replicate n (Release k)) m) = granted k m ++ take n (waiters k m)
  ∧ waiters k (run (replicate n (Release k)) m) = drop n (waiters k m).
Proof.
  revert m. induction n as [|n IH]; intros m Hwf Hn.
  - simpl. by rewrite app_nil_r.
  - change (replicate (S n) (Release k)) with (Release k :: replicate n (Release k)).
    rewrite run_cons. simpl step.
    pose proof (view_release k m Hwf) as Hv. unfold view in Hv.
    unfold waiters in *.
    destruct (waiting k m) as [|next rest] eqn:Hw; [simpl in Hn; lia|].
    injection Hv as _ Hw' Hg.
    destruct (IH (release k m) (wf_release k m Hwf)) as [IH1 IH2].
    { rewrite Hw'. rewrite length_fmap in *. simpl in Hn. lia. }
    rewrite IH1, IH2, Hw', Hg. simpl. by rewrite <- app_assoc.
Qed.

(** X3. Hand-over in order.  After any history on a new mutex, [n] further
    releases of a key that has at least [n] waiters grant exactly the first
    [n] waiters, in queue order, and leave the others queued in order. *)
Theorem releases_serve_waiters_in_order (ops : list Op) (k : string) (n : nat) :
  let m := run ops empty in
  (n ≤ length (waiters k m))%nat →
  granted k (run (replicate n (Release k)) m) = granted k m ++ take n (waiters k m)
  ∧ waiters k (run (replicate n (Release k)) m) = drop n (waiters k m).
Proof. intros m. apply serve_waiters, wf_run, wf_empty. Qed.

End MutexUse.

(* ===================================================================== *)
(** * More facts: instance registry and aggregate runtime                 *)
(* ===================================================================== *)

Section RegistryUse.

Context {StateT PayloadT : Type}.

Local Abbreviation W := (World StateT PayloadT).
Local Abbreviation Ev := (AggregateEvent PayloadT).

(** X4. The directory of definitions gives back what was defined.  After
    [defineAggregateRoot(options)] the lookup of the options' name returns
    them; the lookup of any other name answers as before; a later definition
    under the same name replaces the earlier one; no instance record and no
    state object is touched. *)
Theorem define_then_get (options : AggregateOptions StateT PayloadT) (w : W) :
  ∃ w',
    defineAggregateRoot options w = (Ok options, w')
    ∧ getAggregateDefinition (opt_name options) w' = (Ok options, w')
    ∧ (∀ name, name ≠ opt_name options →
         (getAggregateDefinition name w').1 = (getAggregateDefinition name w).1)
    ∧ (∀ later w'', opt_name later = opt_name options →
         defineAggregateRoot later w' = (Ok later, w'') →
         (getAggregateDefinition (opt_name options) w'').1 = Ok later)
    ∧ aggregatesData w' = aggregatesData w ∧ heap w' = heap w ∧ scopes w' = scopes w.
Proof.
  eexists. split; [reflexivity|]. split.
  { unfold getAggregateDefinition. simpl. by rewrite lookup_insert_eq. }
  split.
  { intros name Hne. unfold getAggregateDefinition. simpl.
    rewrite lookup_insert_ne by done.
    by destruct (aggregateDefinitions w !! name). }
  split; [|done].
  intros later w'' Hname [= <-]. unfold getAggregateDefinition. simpl.
  by rewrite Hname, lookup_insert_eq.
Qed.

(** X5. A handle without a record is refused and nothing is written.  When
    the handle is null or has no record (never created, or a copy of an
    instance object), [aggregateData], [recordEvent] and [popRecordedEvents]
    throw [InstanceDoesNotExistError] and leave the registry as it was. *)
Theorem no_record_no_effect (instance : option ref) (w : W) (event : IEvent PayloadT) :
  lookupData instance w = None →
  aggregateData instance w = (Throw InstanceDoesNotExistError, w)
  ∧ recordEvent instance event w = (Throw InstanceDoesNotExistError, w)
  ∧ (∀ r, instance = Some r →
       popRecordedEvents r w = (Throw InstanceDoesNotExistError, w)).
Proof.
  intros Hnone. split; [unfold aggregateData; by rewrite Hnone|].
  assert (recordEvent instance event w = (Throw InstanceDoesNotExistError, w)) as Hrec.
  { unfold recordEvent. destruct instance as [r|]; [|done].
    simpl in *. by rewrite Hnone. }
  split; [done|].
  intros r ->. unfold popRecordedEvents. simpl in Hnone. by rewrite Hnone.
Qed.

Lemma imap_versions (v clock : Z) (events : list (IEvent PayloadT)) :
  version <$> imap (λ i e, {| name := ev_name e; payload := ev_payload e;
                              occuredAt := clock;
                              version := v + 1 + Z.of_nat i |}) events
  = seqZ (v + 1) (Z.of_nat (length events)).
Proof.
  apply list_eq. intros i. rewrite list_lookup_fmap, list_lookup_imap.
  destruct (events !! i) as [e|] eqn:He; simpl.
  - symmetry. apply lookup_seqZ. split; [done|].
    apply lookup_lt_Some in He. lia.
  - symmetry. apply lookup_seqZ_ge. apply lookup_ge_None in He. lia.
Qed.

(** What a run of [recordEvent] calls leaves in the record. *)
Lemma recordAll_spec (r : ref) (events : list (IEvent PayloadT)) (w : W)
    (data : AggregateData PayloadT) :
  aggregatesData w !! r = Some data →
  ∃ w',
    recordAll (Some r) events w = (Ok tt, w')
    ∧ aggregatesData w' !! r =
        Some {| state := state data;
                data_version := data_version data + Z.of_nat (length events);
                recordedEvents :=
                  recordedEvents data ++
                  imap (λ i e, {| name := ev_name e; payload := ev_payload e;
                                  occuredAt := now w;
                                  version := data_version data + 1 + Z.of_nat i |}) events |}
    ∧ (∀ other, other ≠ r → aggregatesData w' !! other = aggregatesData w !! other)
    ∧ heap w' = heap w ∧ scopes w' = scopes w ∧ now w' = now w
    ∧ aggregateDefinitions w' = aggregateDefinitions w ∧ next w' = next w.
Proof.
  revert w data. induction events as [|event rest IH]; intros w data Hdata.
  - exists w. split; [done|]. split; [|done].
    rewrite Hdata. destruct data. simpl. by rewrite Z.add_0_r, app_nil_r.
  - simpl recordAll. unfold bind at 1, recordEvent, lookupData. rewrite Hdata.
    match goal with
    | |- ∃ w', recordAll _ _ ?w1 = _ ∧ _ =>
        destruct (IH w1 {| state := state data; data_version := data_version data + 1;
                           recordedEvents :=
                             recordedEvents data ++
                             [{| name := ev_name event; payload := ev_payload event;
                                 occuredAt := now w;
                                 version := data_version data + 1 |}] |})
          as (w' & Hrun & Hrec & Hother & Hheap & Hscopes & Hnow & Hdefs & Hnext)
    end.
    { simpl. by rewrite lookup_insert_eq. }
    exists w'. split; [exact Hrun|]. split.
    + rewrite Hrec. simpl. f_equal. f_equal; [lia|].
      rewrite <- app_assoc. f_equal. simpl. f_equal; [f_equal; lia|].
      apply imap_ext. intros i e _. simpl. f_equal. lia.
    + split; [|done]. intros other Hne. rewrite Hother by done. simpl.
      by rewrite lookup_insert_ne.
Qed.

(** X6. Recording keeps the versions consecutive.  On an instance whose
    pending events carry consecutive versions ending at the record's
    version (as after [createInstanceData] or a pop), any run of
    [recordEvent] calls returns, raises the version by the number of events
    recorded, keeps the pending versions consecutive and ending at the new
    version (so they pass [areEventsContinous]), and touches neither the
    state reference nor any state object. *)
Theorem recording_keeps_versions_contiguous (r : ref) (events : list (IEvent PayloadT))
    (w : W) (data : AggregateData PayloadT) :
  aggregatesData w !! r = Some data →
  pendingContiguous data →
  ∃ w' data',
    recordAll (Some r) events w = (Ok tt, w')
    ∧ aggregatesData w' !! r = Some data'
    ∧ pendingContiguous data'
    ∧ areEventsContinous (recordedEvents data') = true
    ∧ data_version data' = data_version data + Z.of_nat (length events)
    ∧ state data' = state data
    ∧ heap w' = heap w.
Proof.
  intros Hdata Hinv.
  destruct (recordAll_spec r events w data Hdata) as (w' & Hrun & Hrec & _ & Hheap & _).
  eexists w', _. split; [exact Hrun|]. split; [exact Hrec|].
  assert (pendingContiguous
            {| state := state data;
               data_version := data_version data + Z.of_nat (length events);
               recordedEvents :=
                 recordedEvents data ++
                 imap (λ i e, {| name := ev_name e; payload := ev_payload e;
                                 occuredAt := now w;
                                 version := data_version data + 1 + Z.of_nat i |}) events |})
    as Hinv'.
  { unfold pendingContiguous in *. simpl.
    rewrite fmap_app, Hinv, imap_versions, length_app, length_imap, Nat2Z.inj_add.
    rewrite seqZ_app by lia. f_equal; f_equal; lia. }
  split; [exact Hinv'|]. split; [|done].
  apply not_false_iff_true. intros Hbreak.
  apply areEventsContinous_false in Hbreak. rewrite Hinv' in Hbreak.
  by apply seqZ_no_break in Hbreak.
Qed.

(** X7. What is recorded is what a pop returns.  On an instance with no
    pending event, a run of [recordEvent] calls followed by two pops gives,
    at the first pop, one pending event per recorded event, in order, with
    its name and payload and the versions that follow the record's version;
    the second pop gives nothing. *)
Theorem record_then_pop (r : ref) (events : list (IEvent PayloadT)) (w : W)
    (data : AggregateData PayloadT) :
  aggregatesData w !! r = Some data →
  recordedEvents data = [] →
  ∃ popped w',
    (let! _ := recordAll (Some r) events in
     let! first := popRecordedEvents r in
     let! second := popRecordedEvents r in
     ret (first, second)) w = (Ok (popped, []), w')
    ∧ name <$> popped = ev_name <$> events
    ∧ payload <$> popped = ev_payload <$> events
    ∧ version <$> popped = seqZ (data_version data + 1) (Z.of_nat (length events)).
Proof.
  intros Hdata Hnone.
  destruct (recordAll_spec r events w data Hdata) as (w1 & Hrun & Hrec & _).
  rewrite Hnone in Hrec. simpl in Hrec.
  eexists _, _. unfold bind at 1. rewrite Hrun.
  unfold bind at 1, popRecordedEvents at 1. rewrite Hrec.
  unfold bind at 1, popRecordedEvents. simpl. rewrite lookup_insert_eq. simpl.
  split; [reflexivity|].
  split; [|split; [|apply imap_versions]].
  - apply list_eq. intros i. rewrite !list_lookup_fmap, list_lookup_imap.
    by destruct (events !! i).
  - apply list_eq. intros i. rewrite !list_lookup_fmap, list_lookup_imap.
    by destruct (events !! i).
Qed.

(** X8. [create] makes a new live instance and disturbs no other.  In a
    registry whose identities in use are all below the next one, [create]
    returns an instance with the given identifier whose identity had no
    record before, whose own reference to itself is set, whose record has
    version 0, no pending event and a new state object holding the initial
    state; the records, state objects and scope variables that existed are
    unchanged, and the identities in use stay below the next one. *)
Theorem create_is_new (options : AggregateOptions StateT PayloadT) (id : string) (w : W) :
  allocated w →
  ∃ instance w' st,
    create options id w = (Ok instance, w')
    ∧ inst_id instance = id
    ∧ aggregatesData w !! self instance = None
    ∧ instanceVar instance w' = Some (self instance)
    ∧ aggregatesData w' !! self instance =
        Some {| state := st; data_version := 0; recordedEvents := [] |}
    ∧ heap w !! st = None
    ∧ heap w' !! st = Some (initialState options)
    ∧ (∀ r, r ≠ self instance → aggregatesData w' !! r = aggregatesData w !! r)
    ∧ (∀ r, is_Some (heap w !! r) → heap w' !! r = heap w !! r)
    ∧ (∀ sc, is_Some (scopes w !! sc) → scopes w' !! sc = scopes w !! sc)
    ∧ allocated w'.
Proof.
  intros Halloc.
  eexists _, _, _. split; [reflexivity|]. simpl.
  split; [done|].
  split; [apply Halloc; lia|].
  split; [unfold instanceVar; simpl; by rewrite lookup_insert_eq|].
  split; [by rewrite lookup_insert_eq|].
  split; [apply Halloc; lia|].
  split; [by rewrite lookup_insert_eq|].
  split; [intros r Hne; by rewrite lookup_insert_ne|].
  split.
  { intros r [x Hx]. rewrite lookup_insert_ne; [done|].
    intros <-. destruct (Halloc (Pos.succ (Pos.succ (next w)))) as (Hh & _); [lia|].
    congruence. }
  split.
  { intros sc [x Hx]. rewrite lookup_insert_ne; [done|].
    intros <-. destruct (Halloc (next w)) as (_ & _ & Hs); [lia|]. congruence. }
  unfold allocated. simpl. intros r Hr.
  destruct (Halloc r) as (Hh & Hd & Hs); [lia|].
  rewrite !lookup_insert_ne by lia. done.
Qed.

(** X9. [recordThat] records first and handles second.  For an event name
    without a handler the call returns and changes nothing, whatever the
    state of the instance.  For a name with a handler, on a live instance
    with a record, the event is appended to the pending events with the
    record's version plus 1, then the handler runs on the live state
    object; the call returns exactly when the handler returns, and when the
    handler throws the event stays recorded and the version stays raised. *)
Theorem recordThat_records_then_handles (instance : AggregateInstance StateT PayloadT)
    (eventName : string) (eventPayload : PayloadT) (w : W) :
  match handlerOf (options instance) eventName with
  | None => recordThat instance eventName eventPayload w = (Ok tt, w)
  | Some handler =>
      ∀ r data,
        instanceVar instance w = Some r →
        aggregatesData w !! r = Some data →
        let handled := handler (state data) {| ev_name := eventName; ev_payload := eventPayload |}
                         (heap w) in
        ∃ w',
          recordThat instance eventName eventPayload w =
            (match handled.1 with
             | Returns => Ok tt
             | Throws what => Throw (Foreign what)
             end, w')
          ∧ aggregatesData w' !! r =
              Some {| state := state data;
                      data_version := data_version data + 1;
                      recordedEvents :=
                        recordedEvents data ++
                        [{| name := eventName; payload := eventPayload;
                            occuredAt := now w;
                            version := data_version data + 1 |}] |}
          ∧ heap w' = handled.2
  end.
Proof.
  unfold recordThat. destruct (handlerOf (options instance) eventName) as [handler|]; [|done].
  intros r data Hlive Hdata.
  unfold bind at 1. rewrite Hlive. unfold recordEvent, lookupData. rewrite Hdata.
  unfold closure_state, bind, aggregateData, lookupData.
  unfold instanceVar in *. simpl. rewrite Hlive. rewrite lookup_insert_eq. simpl.
  unfold callHandler. simpl.
  destruct (handler (state data) _ (heap w)) as [[|what] h]; simpl;
    (eexists; split; [reflexivity|]; simpl; by rewrite lookup_insert_eq).
Qed.

End RegistryUse.

(* ===================================================================== *)
(** * More facts: sorting, continuity and replay                          *)
(* ===================================================================== *)

Section ReplayUse.

Context {StateT PayloadT : Type}.

Local Abbreviation W := (World StateT PayloadT).
Local Abbreviation Ev := (AggregateEvent PayloadT).

Lemma insertSorted_stable (v : Z) (x : Ev) (l : list Ev) :
  filter (λ e, version e = v) (insertSorted byVersion x l)
  = filter (λ e, version e = v) (x :: l).
Proof.
  induction l as [|y l IH]; [done|]. simpl insertSorted.
  case_decide as Hcmp; [|done]. unfold byVersion in Hcmp.
  rewrite (filter_cons _ y), IH, !filter_cons.
  repeat case_decide; try done; lia.
Qed.

Lemma insertSorted_head (x : Ev) (l : list Ev) :
  HdRel Z.le (version x) (version <$> l) → insertSorted byVersion x l = x :: l.
Proof.
  destruct l as [|y l]; [done|]. intros Hhd. simpl in Hhd.
  apply HdRel_inv in Hhd. cbn [insertSorted].
  rewrite decide_False; [done|]. unfold byVersion. lia.
Qed.

Lemma toSorted_ascending (events : list Ev) :
  Sorted Z.le (version <$> events) → toSorted byVersion events = events.
Proof.
  induction events as [|x l IH]; [done|]. intros Hs. simpl in Hs.
  apply Sorted_inv in Hs as [Hs Hhd]. simpl. rewrite IH by done.
  by apply insertSorted_head.
Qed.

(** X10. Sorting by version.  [toSorted(EventSorter.byVersion)] returns the
    same events with ascending versions; events that carry the same version
    keep the order they were given in; a list whose versions already ascend
    is returned as it is. *)
Theorem toSorted_byVersion_sorts (events : list Ev) :
  Sorted Z.le (version <$> toSorted byVersion events)
  ∧ toSorted byVersion events ≡ₚ events
  ∧ (∀ v, filter (λ e, version e = v) (toSorted byVersion events)
          = filter (λ e, version e = v) events)
  ∧ (Sorted Z.le (version <$> events) → toSorted byVersion events = events).
Proof.
  split; [apply toSorted_sorted|]. split; [apply toSorted_perm|].
  split; [|apply toSorted_ascending].
  intros v. induction events as [|x l IH]; [done|]. simpl.
  by rewrite insertSorted_stable, !filter_cons, IH.
Qed.

Lemma continousFrom_true (prev : Z) (versions : list Z) :
  continousFrom prev versions = true →
  prev :: versions = seqZ prev (Z.of_nat (S (length versions))).
Proof.
  revert prev. induction versions as [|v rest IH]; intros prev; simpl continousFrom.
  - intros _. simpl length. rewrite seqZ_cons by lia. by rewrite seqZ_nil by lia.
  - case_decide as Hstep; [done|].
    intros Hrest. apply IH in Hrest.
    rewrite seqZ_cons by lia. f_equal.
    replace (Z.succ prev) with v by lia.
    replace (Z.pred (Z.of_nat (S (length (v :: rest)))))
      with (Z.of_nat (S (length rest))) by (simpl length; lia).
    exact Hrest.
Qed.

Lemma areEventsContinous_run (sortedEvents : list Ev) :
  areEventsContinous sortedEvents = true
  ↔ ∃ v, version <$> sortedEvents = seqZ v (Z.of_nat (length sortedEvents)).
Proof.
  split.
  - unfold areEventsContinous. destruct sortedEvents as [|e1 [|e2 rest]].
    + intros _. exists 0. by rewrite seqZ_nil by done.
    + intros _. exists (version e1). simpl.
      rewrite seqZ_cons by lia. by rewrite seqZ_nil by lia.
    + rewrite decide_False by (simpl; lia). intros Hc. exists (version e1).
      change (version <$> e1 :: e2 :: rest)
        with (version e1 :: (version <$> e2 :: rest)) in *.
      apply continousFrom_true in Hc. rewrite Hc. by rewrite !length_fmap.
  - intros [v Hv]. apply not_false_iff_true. intros Hbreak.
    apply areEventsContinous_false in Hbreak. rewrite Hv in Hbreak.
    by apply seqZ_no_break in Hbreak.
Qed.

(** X11. [areEventsContinous] recognises the runs of versions.  It answers
    true exactly when the versions, in the order given, are [v, v + 1, ...]
    for some [v]; so it accepts the empty list and every list of one event,
    and what it accepts has ascending versions without a repetition. *)
Theorem areEventsContinous_iff_run (sortedEvents : list Ev) :
  (areEventsContinous sortedEvents = true
   ↔ ∃ v, version <$> sortedEvents = seqZ v (Z.of_nat (length sortedEvents)))
  ∧ ((length sortedEvents ≤ 1)%nat → areEventsContinous sortedEvents = true)
  ∧ (areEventsContinous sortedEvents = true →
     Sorted Z.le (version <$> sortedEvents) ∧ NoDup (version <$> sortedEvents)).
Proof.
  split; [apply areEventsContinous_run|]. split.
  - intros Hlen. unfold areEventsContinous. rewrite decide_True; [done|lia].
  - intros [v ->]%areEventsContinous_run. split; [apply seqZ_sorted|apply NoDup_seqZ].
Qed.

(** [loadAggregate] up to its first test, for every history at once. *)
Lemma loadAggregate_prelude (w : W) aggregateName id snapshot
    (options : AggregateOptions StateT PayloadT) :
  aggregateDefinitions w !! aggregateName = Some options →
  ∃ w1 : W,
    let instance := {| self := Pos.succ (next w); scope := next w;
                       inst_id := id; options := options |} in
    let st := match snapshot with
              | Some s => snap_state s
              | None => Pos.succ (Pos.succ (next w))
              end in
    aggregatesData w1 !! Pos.succ (next w) =
      Some {| state := st; data_version := snapshotVersion snapshot; recordedEvents := [] |}
    ∧ (∀ r, r ≠ Pos.succ (next w) → aggregatesData w1 !! r = aggregatesData w !! r)
    ∧ heap w1 = <[Pos.succ (Pos.succ (next w)) := initialState options]> (heap w)
    ∧ scopes w1 = <[next w := Some (Pos.succ (next w))]> (scopes w)
    ∧ ∀ events : list Ev,
        loadAggregate aggregateName id events snapshot w =
          match events with
          | [] => (Ok instance, w1)
          | _ :: _ =>
              match opt_events options with
              | None => (Throw NoEventsDefined, w1)
              | Some _ =>
                  match newEventsOf events snapshot with
                  | [] => (Ok instance, w1)
                  | first :: rest =>
                      if decide (version first ≠ snapshotVersion snapshot + 1)
                      then (Throw EventsDontStartAfterSnapshot, w1)
                      else if negb (areEventsContinous (first :: rest))
                      then (Throw EventsNotContinous, w1)
                      else (let! _ := applyEvents options (Pos.succ (next w)) st
                                        (first :: rest) in
                            ret instance) w1
                  end
              end
          end.
Proof.
  intros Hdef.
  destruct snapshot as [s|].
  - exists (set_aggregatesData
              (alter (λ d, {| state := snap_state s; data_version := snap_version s;
                              recordedEvents := recordedEvents d |})
                 (Pos.succ (next w))
                 (<[Pos.succ (next w) := {| state := Pos.succ (Pos.succ (next w));
                                            data_version := 0; recordedEvents := [] |}]>
                    (aggregatesData w)))
              (create options id w).2).
    cbv zeta. split; [simpl; by rewrite lookup_alter_eq, lookup_insert_eq|].
    split; [intros r Hne; simpl; by rewrite lookup_alter_ne, lookup_insert_ne|].
    split; [reflexivity|]. split; [reflexivity|].
    intros events. unfold loadAggregate, bind at 1, getAggregateDefinition. rewrite Hdef.
    unfold bind at 1. change (create options id w) with
      (Ok {| self := Pos.succ (next w); scope := next w; inst_id := id; options := options |},
       (create options id w).2).
    unfold bind at 1, aggregateData, lookupData. simpl self.
    change (aggregatesData (create options id w).2) with
      (<[Pos.succ (next w) := {| state := Pos.succ (Pos.succ (next w));
                                 data_version := 0; recordedEvents := [] |}]>
         (aggregatesData w)).
    rewrite lookup_insert_eq. unfold bind at 1, setSnapshot, modify.
    destruct events as [|e events]; [reflexivity|].
    destruct (opt_events options); [|reflexivity].
    destruct (newEventsOf (e :: events) (Some s)); [reflexivity|].
    case_decide; [reflexivity|]. destruct (negb _); reflexivity.
  - exists (create options id w).2.
    cbv zeta. split; [simpl; by rewrite lookup_insert_eq|].
    split; [intros r Hne; simpl; by rewrite lookup_insert_ne|].
    split; [reflexivity|]. split; [reflexivity|].
    intros events. unfold loadAggregate, bind at 1, getAggregateDefinition. rewrite Hdef.
    unfold bind at 1. change (create options id w) with
      (Ok {| self := Pos.succ (next w); scope := next w; inst_id := id; options := options |},
       (create options id w).2).
    unfold bind at 1, aggregateData, lookupData. simpl self.
    change (aggregatesData (create options id w).2) with
      (<[Pos.succ (next w) := {| state := Pos.succ (Pos.succ (next w));
                                 data_version := 0; recordedEvents := [] |}]>
         (aggregatesData w)).
    rewrite lookup_insert_eq. unfold bind at 1, ret at 1.
    destruct events as [|e events]; [reflexivity|].
    destruct (opt_events options); [|reflexivity].
    destruct (newEventsOf (e :: events) None); [reflexivity|].
    case_decide; [reflexivity|]. destruct (negb _); reflexivity.
Qed.

(** Whatever its outcome, the loop of [loadAggregate] writes the version of
    one record and what the handlers write to the heap. *)
Lemma applyEvents_frame options (instance st : ref) (newEvents : list Ev) (w : W) :
  scopes (applyEvents options instance st newEvents w).2 = scopes w
  ∧ (∀ r, r ≠ instance →
       aggregatesData (applyEvents options instance st newEvents w).2 !! r
       = aggregatesData w !! r)
  ∧ (∀ d, aggregatesData w !! instance = Some d →
       ∃ v, aggregatesData (applyEvents options instance st newEvents w).2 !! instance
            = Some {| state := state d; data_version := v;
                      recordedEvents := recordedEvents d |}).
Proof.
  revert w. induction newEvents as [|event rest IH]; intros w; simpl.
  - split; [done|]. split; [done|]. intros d ->. exists (data_version d). by destruct d.
  - destruct (handlerOf options (name event)) as [handler|]; simpl.
    2:{ split; [done|]. split; [done|]. intros d ->. exists (data_version d).
        by destruct d. }
    unfold bind, callHandler, setVersion, modify.
    destruct (handler st _ (heap w)) as [[|what] h]; simpl.
    2:{ split; [done|]. split; [done|]. intros d ->. exists (data_version d).
        by destruct d. }
    match goal with
    | |- context [applyEvents _ _ _ _ ?w2] => destruct (IH w2) as (Hs & Ho & Hd)
    end.
    split; [by rewrite Hs|]. split.
    + intros r Hne. rewrite Ho by done. simpl. by rewrite lookup_alter_ne.
    + intros d Hdata.
      destruct (Hd {| state := state d; data_version := version event;
                      recordedEvents := recordedEvents d |}) as [v Hv].
      { simpl. by rewrite lookup_alter_eq, Hdata. }
      exists v. exact Hv.
Qed.

Lemma areEventsContinous_versions (l l' : list Ev) :
  version <$> l = version <$> l' → areEventsContinous l = areEventsContinous l'.
Proof.
  intros Hv. unfold areEventsContinous.
  rewrite <- (length_fmap version l), <- (length_fmap version l'). by rewrite Hv.
Qed.

Lemma same_versions_same_events (l l' : list Ev) :
  l ≡ₚ l' → version <$> l = version <$> l' → NoDup (version <$> l) → l = l'.
Proof.
  intros Hperm Hv Hnodup. apply list_eq. intros i.
  pose proof (f_equal (λ vs, vs !! i) Hv) as Hi. simpl in Hi.
  rewrite !list_lookup_fmap in Hi.
  destruct (l !! i) as [a|] eqn:Ha, (l' !! i) as [b|] eqn:Hb; simpl in Hi; try done.
  injection Hi as Hab. f_equal.
  assert (b ∈ l) as Hin by (rewrite Hperm; by eapply list_elem_of_lookup_2).
  apply list_elem_of_lookup in Hin as [j Hj].
  assert (i = j) as ->; [|congruence].
  eapply NoDup_lookup; [exact Hnodup| |].
  - rewrite list_lookup_fmap, Ha. reflexivity.
  - rewrite list_lookup_fmap, Hj. simpl. by rewrite Hab.
Qed.

Lemma keptEvents_perm (events events' : list Ev) snapshot :
  events ≡ₚ events' → keptEvents events snapshot ≡ₚ keptEvents events' snapshot.
Proof. intros Hperm. destruct snapshot as [s|]; simpl; [|done]. by rewrite Hperm. Qed.

Lemma applyEvents_app options (instance st : ref) (l1 l2 : list Ev) (w : W) :
  applyEvents options instance st (l1 ++ l2) w
  = (let! _ := applyEvents options instance st l1 in
     applyEvents options instance st l2) w.
Proof.
  revert w. induction l1 as [|event rest IH]; intros w; [done|]. simpl.
  destruct (handlerOf options (name event)) as [handler|]; [|done].
  unfold bind, callHandler, setVersion, modify.
  destruct (handler st _ (heap w)) as [[|what] h]; [|done].
  rewrite IH. reflexivity.
Qed.

(** X12. The order of the supplied history does not matter.  Two histories
    that hold the same events in different orders give the same outcome of
    [loadAggregate] - the same instance or the same error - and leave the
    same registry. *)
Theorem replay_ignores_order (w : W) (aggregateName id : string)
    (events events' : list Ev) (snapshot : option ISnapshot) :
  events ≡ₚ events' →
  loadAggregate aggregateName id events snapshot w
  = loadAggregate aggregateName id events' snapshot w.
Proof.
  intros Hperm.
  destruct (aggregateDefinitions w !! aggregateName) as [options|] eqn:Hdef.
  2:{ unfold loadAggregate, bind, getAggregateDefinition. by rewrite Hdef. }
  destruct (loadAggregate_prelude w aggregateName id snapshot options Hdef)
    as (w1 & Hu). cbv zeta in Hu. destruct Hu as (_ & _ & _ & _ & Hload).
  rewrite !Hload. clear Hload.
  destruct events as [|e events], events' as [|e' events']; [done| | |].
  { by apply Permutation_nil_cons in Hperm. }
  { symmetry in Hperm. by apply Permutation_nil_cons in Hperm. }
  destruct (opt_events options); [|done].
  assert (newEventsOf (e :: events) snapshot ≡ₚ newEventsOf (e' :: events') snapshot) as Hl.
  { unfold newEventsOf. rewrite !toSorted_perm. by apply keptEvents_perm. }
  assert (version <$> newEventsOf (e :: events) snapshot
          = version <$> newEventsOf (e' :: events') snapshot) as Hv.
  { apply (Sorted_unique Z.le); [apply toSorted_sorted..|]. by rewrite Hl. }
  destruct (newEventsOf (e :: events) snapshot) as [|first rest],
           (newEventsOf (e' :: events') snapshot) as [|first' rest']; try done.
  assert (version first = version first') as Hfirst by (by injection Hv).
  rewrite Hfirst. case_decide; [done|].
  rewrite (areEventsContinous_versions (first :: rest) (first' :: rest') Hv).
  destruct (areEventsContinous (first' :: rest')) eqn:Hcont; [|done].
  simpl negb. cbv iota.
  assert (first :: rest = first' :: rest') as ->; [|done].
  apply same_versions_same_events; [done..|].
  rewrite Hv. apply areEventsContinous_run in Hcont as [v ->]. apply NoDup_seqZ.
Qed.

(** X13. What a replay returns.  Whenever [loadAggregate] returns for a
    defined aggregate, the instance has the identifier asked for, its own
    reference to itself is set (it is live), and its record has no pending
    event: replayed events are not recorded again.  With a snapshot the
    record's state is the snapshot's own state object, not a copy; without
    one it is a new object.  The records of the other instances are as they
    were. *)
Theorem replay_returns_live_instance (w w' : W) (aggregateName id : string)
    (events : list Ev) (snapshot : option ISnapshot)
    (definition : AggregateOptions StateT PayloadT)
    (instance : AggregateInstance StateT PayloadT) :
  aggregateDefinitions w !! aggregateName = Some definition →
  loadAggregate aggregateName id events snapshot w = (Ok instance, w') →
  inst_id instance = id
  ∧ options instance = definition
  ∧ instanceVar instance w' = Some (self instance)
  ∧ (∃ v, aggregatesData w' !! self instance =
            Some {| state := match snapshot with
                             | Some s => snap_state s
                             | None => Pos.succ (Pos.succ (next w))
                             end;
                    data_version := v; recordedEvents := [] |})
  ∧ (∀ r, r ≠ self instance → aggregatesData w' !! r = aggregatesData w !! r).
Proof.
  intros Hdef Hrun.
  destruct (loadAggregate_prelude w aggregateName id snapshot definition Hdef)
    as (w1 & Hu). cbv zeta in Hu. destruct Hu as (Hdata & Hother & _ & Hscopes & Hload).
  rewrite Hload in Hrun. clear Hload.
  assert (∀ w2, scopes w2 = scopes w1 →
            instanceVar {| self := Pos.succ (next w); scope := next w; inst_id := id;
                           options := definition |} w2 = Some (Pos.succ (next w))) as Hlive.
  { intros w2 Hs. unfold instanceVar. simpl. by rewrite Hs, Hscopes, lookup_insert_eq. }
  assert (∀ i, (Ok {| self := Pos.succ (next w); scope := next w; inst_id := id;
                       options := definition |}, w1) = (Ok i, w') →
            inst_id i = id ∧ options i = definition
            ∧ instanceVar i w' = Some (self i)
            ∧ (∃ v, aggregatesData w' !! self i =
                 Some {| state := match snapshot with
                                  | Some s => snap_state s
                                  | None => Pos.succ (Pos.succ (next w))
                                  end;
                         data_version := v; recordedEvents := [] |})
            ∧ (∀ r, r ≠ self i → aggregatesData w' !! r = aggregatesData w !! r)) as Hidle.
  { intros i [= <- <-]. simpl. split; [done|]. split; [done|].
    split; [by apply Hlive|]. split; [by eexists|]. exact Hother. }
  destruct events as [|e events]; [by apply Hidle|].
  destruct (opt_events definition); [|done].
  destruct (newEventsOf (e :: events) snapshot) as [|first rest]; [by apply Hidle|].
  case_decide; [done|]. destruct (areEventsContinous (first :: rest)); [|done].
  simpl negb in Hrun. cbv iota in Hrun. unfold bind in Hrun.
  match type of Hrun with
  | context [applyEvents ?o ?i ?s ?l ?w0] =>
      destruct (applyEvents_frame o i s l w0) as (Hs & Ho & Hd);
      destruct (applyEvents o i s l w0) as [[[]|err] w2]; [|done]
  end.
  injection Hrun as <- <-. simpl in *.
  split; [done|]. split; [done|]. split; [by apply Hlive|]. split.
  - destruct (Hd _ Hdata) as [v Hv]. exists v. exact Hv.
  - intros r Hne. rewrite Ho by done. by apply Hother.
Qed.

(** X14. A history needs handlers, even a history that changes nothing.  For
    a defined aggregate that declares no event handlers, [loadAggregate]
    returns exactly when no event is supplied; with any event supplied,
    also one the snapshot already covers, it fails with the error for
    missing handlers. *)
Theorem replay_without_handlers (w : W) (aggregateName id : string)
    (events : list Ev) (snapshot : option ISnapshot)
    (definition : AggregateOptions StateT PayloadT) :
  aggregateDefinitions w !! aggregateName = Some definition →
  opt_events definition = None →
  match events with
  | [] => ∃ instance, (loadAggregate aggregateName id events snapshot w).1 = Ok instance
  | _ :: _ => (loadAggregate aggregateName id events snapshot w).1 = Throw NoEventsDefined
  end.
Proof.
  intros Hdef Hnone.
  destruct (loadAggregate_prelude w aggregateName id snapshot definition Hdef)
    as (w1 & Hu). cbv zeta in Hu. destruct Hu as (_ & _ & _ & _ & Hload).
  rewrite Hload. destruct events; [by eexists|]. by rewrite Hnone.
Qed.

(** X15. A missing handler stops the replay where it is.  When the kept
    events pass both version checks and the first events, in version order,
    have handlers that return while the next one has none, [loadAggregate]
    fails with the error naming that event and the aggregate, and the record
    is left at the version of the last event applied. *)
Theorem replay_stops_at_missing_handler (w : W) (aggregateName id : string)
    (events : list Ev) (snapshot : option ISnapshot)
    (definition : AggregateOptions StateT PayloadT)
    (applied : list Ev) (missing : Ev) (later : list Ev) :
  aggregateDefinitions w !! aggregateName = Some definition →
  is_Some (opt_events definition) →
  newEventsOf events snapshot = applied ++ missing :: later →
  version <$> newEventsOf events snapshot
    = seqZ (snapshotVersion snapshot + 1) (Z.of_nat (length (applied ++ missing :: later))) →
  (∀ event, event ∈ applied → handled definition event) →
  handlerOf definition (name missing) = None →
  ∃ w',
    loadAggregate aggregateName id events snapshot w
    = (Throw (HandlerNotDefined (name missing) (opt_name definition)), w')
    ∧ data_version <$> aggregatesData w' !! Pos.succ (next w)
      = Some (snapshotVersion snapshot + Z.of_nat (length applied)).
Proof.
  intros Hdef [handlers Hopt] Hnew Hvs Hall Hmissing.
  destruct (loadAggregate_prelude w aggregateName id snapshot definition Hdef)
    as (w1 & Hu). cbv zeta in Hu. destruct Hu as (Hdata & _ & _ & _ & Hload).
  rewrite Hload. clear Hload.
  destruct events as [|e events].
  { rewrite newEventsOf_nil in Hnew. by destruct applied. }
  rewrite Hopt.
  assert (areEventsContinous (newEventsOf (e :: events) snapshot) = true) as Hcont.
  { apply areEventsContinous_run. eexists. rewrite Hvs, Hnew. reflexivity. }
  destruct (newEventsOf (e :: events) snapshot) as [|first rest] eqn:Hsorted.
  { by destruct applied. }
  assert (version first = snapshotVersion snapshot + 1) as Hfirst.
  { rewrite <- Hnew in Hvs. simpl length in Hvs. rewrite seqZ_cons in Hvs by lia.
    by injection Hvs. }
  rewrite decide_False by (intros ?; done). rewrite Hcont. simpl negb. cbv iota.
  rewrite Hnew in *. clear Hsorted Hcont Hfirst.
  unfold bind at 1. rewrite applyEvents_app. unfold bind at 1.
  match goal with
  | |- context [applyEvents _ _ ?st applied w1] =>
      destruct (applyEvents_ok definition (Pos.succ (next w)) st applied w1 _ Hall Hdata)
        as (w2 & -> & Hdata2)
  end.
  simpl applyEvents. rewrite Hmissing. eexists. split; [reflexivity|].
  simpl. rewrite Hdata2. simpl. f_equal.
  assert (version <$> applied
          = seqZ (snapshotVersion snapshot + 1) (Z.of_nat (length applied))) as Happlied.
  { rewrite fmap_app, length_app, Nat2Z.inj_add, seqZ_app in Hvs by lia.
    apply app_inj_1 in Hvs as [Hv _]; [done|].
    by rewrite length_fmap, length_seqZ, Nat2Z.id. }
  rewrite Happlied. destruct (length applied) as [|n].
  - rewrite seqZ_nil by done. simpl. lia.
  - rewrite last_seqZ. simpl. lia.
Qed.

End ReplayUse.

(* ===================================================================== *)
(** * Facts: histories, the test helpers and replaying what was recorded  *)
(* ===================================================================== *)

Section HistoryUse.

Context {StateT PayloadT : Type}.

Local Abbreviation WH := (World StateT PayloadT).
Local Abbreviation EvH := (AggregateEvent PayloadT).
Local Abbreviation OptH := (AggregateOptions StateT PayloadT).

Lemma historyEvent_versions (firstEventDate : Z) (snapshot : option ISnapshot)
    (events : list (string * PayloadT)) :
  version <$> imap (historyEvent firstEventDate snapshot) events
  = seqZ (snapshotVersion snapshot + 1) (Z.of_nat (length events)).
Proof.
  apply list_eq. intros i. rewrite list_lookup_fmap, list_lookup_imap.
  destruct (events !! i) as [e|] eqn:He; simpl.
  - symmetry. replace (snapshotVersion snapshot + Z.of_nat i + 1)
      with (snapshotVersion snapshot + 1 + Z.of_nat i) by lia.
    apply lookup_seqZ. split; [done|]. apply lookup_lt_Some in He. lia.
  - symmetry. apply lookup_seqZ_ge. apply lookup_ge_None in He. lia.
Qed.

Lemma filter_keeps_all {A : Type} (P : A → Prop) `{!∀ x, Decision (P x)} (l : list A) :
  Forall P l → filter P l = l.
Proof.
  induction 1 as [|x l Hx _ IH]; [done|]. by rewrite filter_cons_True, IH.
Qed.

(** The events built from a history are the ones [loadAggregate] keeps, in
    the order it applies them. *)
Lemma newEventsOf_history (firstEventDate : Z) (snapshot : option ISnapshot)
    (events : list (string * PayloadT)) :
  newEventsOf (imap (historyEvent firstEventDate snapshot) events) snapshot
  = imap (historyEvent firstEventDate snapshot) events.
Proof.
  unfold newEventsOf.
  assert (keptEvents (imap (historyEvent firstEventDate snapshot) events) snapshot
          = imap (historyEvent firstEventDate snapshot) events) as ->.
  { destruct snapshot as [s|]; [|done]. simpl keptEvents.
    apply filter_keeps_all. apply Forall_lookup. intros i e.
    rewrite list_lookup_imap. destruct (events !! i); [|done].
    intros [= <-]. simpl. lia. }
  apply toSorted_ascending. rewrite historyEvent_versions. apply seqZ_sorted.
Qed.

(** X23. A history given to the test helper is always well versioned.
    [loadAggregateWithEventHistory] numbers the events itself, from the
    version of the snapshot plus 1 (from 1 without one); so whatever history
    and snapshot it is given, it never fails with the error of a wrong start
    nor with the error of a gap.  For a defined aggregate whose handlers
    exist and return, it returns an instance at the version of the snapshot
    plus the number of events, with no pending event. *)
Theorem history_is_well_versioned (aggregateDefinition : OptH) (id : string)
    (events : list (string * PayloadT)) (snapshot : option ISnapshot) (w : WH) :
  (loadAggregateWithEventHistory aggregateDefinition id events snapshot w).1
    ≠ Throw EventsDontStartAfterSnapshot
  ∧ (loadAggregateWithEventHistory aggregateDefinition id events snapshot w).1
    ≠ Throw EventsNotContinous
  ∧ (aggregateDefinitions w !! opt_name aggregateDefinition = Some aggregateDefinition →
     (∀ event, event ∈ events →
        ∃ handler, handlerOf aggregateDefinition event.1 = Some handler
                   ∧ ∀ st e h, (handler st e h).1 = Returns) →
     ∃ instance w',
       loadAggregateWithEventHistory aggregateDefinition id events snapshot w
       = (Ok instance, w')
       ∧ ∃ st, aggregatesData w' !! self instance
               = Some {| state := st;
                         data_version := snapshotVersion snapshot
                                         + Z.of_nat (length events);
                         recordedEvents := [] |}).
Proof.
  unfold loadAggregateWithEventHistory. cbv zeta.
  set (history := imap (historyEvent (now w - 10000 * Z.of_nat (length events)) snapshot)
                    events).
  assert (newEventsOf history snapshot = history) as Hnew
    by apply newEventsOf_history.
  assert (version <$> history
          = seqZ (snapshotVersion snapshot + 1) (Z.of_nat (length events))) as Hvs
    by apply historyEvent_versions.
  assert (length history = length events) as Hlen by apply length_imap.
  assert (∀ first rest, history = first :: rest →
            version first = snapshotVersion snapshot + 1
            ∧ areEventsContinous (first :: rest) = true) as Hchecks.
  { intros first rest Heq. rewrite Heq in *. split.
    - rewrite <- Hlen in Hvs. simpl length in Hvs. rewrite seqZ_cons in Hvs by lia.
      simpl in Hvs. by injection Hvs.
    - apply areEventsContinous_run. eexists. rewrite Hvs, Hlen. reflexivity. }
  destruct (aggregateDefinitions w !! opt_name aggregateDefinition) as [options|] eqn:Hdef.
  2:{ assert (loadAggregate (opt_name aggregateDefinition) id history snapshot w
              = (Throw (AggregateNotDefined (opt_name aggregateDefinition)), w)) as ->.
      { unfold loadAggregate, bind at 1, getAggregateDefinition. by rewrite Hdef. }
      split; [done|]. split; [done|]. done. }
  destruct (loadAggregate_prelude w (opt_name aggregateDefinition) id snapshot options Hdef)
    as (w1 & Hu). cbv zeta in Hu. destruct Hu as (Hdata & _ & _ & _ & Hload).
  rewrite Hload. clear Hload.
  destruct history as [|first rest] eqn:Hhistory.
  { split; [done|]. split; [done|]. intros _ _. eexists _, _. split; [reflexivity|].
    simpl self. eexists. rewrite Hdata. do 2 f_equal.
    destruct events; [simpl; lia|done]. }
  destruct (opt_events options) as [handlers|] eqn:Hopt.
  2:{ split; [done|]. split; [done|]. intros [= ->] Hall.
      destruct events as [|event events']; [done|].
      destruct (Hall event) as (handler & Hh & _); [by left|].
      unfold handlerOf in Hh. by rewrite Hopt in Hh. }
  rewrite Hnew.
  destruct (Hchecks first rest eq_refl) as [Hfirst Hcont].
  rewrite decide_False by (intros ?; done). rewrite Hcont. simpl negb. cbv iota.
  split; [|split].
  - unfold bind at 1.
    match goal with
    | |- context [applyEvents ?o ?i ?st ?l w1] =>
        pose proof (applyEvents_throws o i st l w1 EventsDontStartAfterSnapshot) as Hnever;
        destruct (applyEvents o i st l w1) as [[[]|e] w2]; [done|]
    end.
    intros [= ->]. by destruct (Hnever eq_refl) as [(? & ? & ?)|(? & ?)].
  - unfold bind at 1.
    match goal with
    | |- context [applyEvents ?o ?i ?st ?l w1] =>
        pose proof (applyEvents_throws o i st l w1 EventsNotContinous) as Hnever;
        destruct (applyEvents o i st l w1) as [[[]|e] w2]; [done|]
    end.
    intros [= ->]. by destruct (Hnever eq_refl) as [(? & ? & ?)|(? & ?)].
  - intros [= ->] Hall.
    assert (∀ event, event ∈ first :: rest → handled aggregateDefinition event) as Hhandled.
    { intros event Hin. rewrite <- Hhistory in Hin.
      apply list_elem_of_lookup in Hin as [i Hi].
      unfold history in Hi. rewrite list_lookup_imap in Hi.
      destruct (events !! i) as [e|] eqn:He; [|done]. simpl in Hi. injection Hi as <-.
      apply (Hall e). by eapply list_elem_of_lookup_2. }
    unfold bind at 1.
    match goal with
    | |- context [applyEvents _ _ ?st (first :: rest) w1] =>
        destruct (applyEvents_ok aggregateDefinition (Pos.succ (next w)) st
                    (first :: rest) w1 _ Hhandled Hdata) as (w2 & -> & Hdata2)
    end.
    eexists _, _. split; [reflexivity|]. simpl self. eexists. rewrite Hdata2.
    cbn [state data_version recordedEvents]. do 2 f_equal.
    rewrite Hvs. destruct (length events) as [|n] eqn:Hn; [done|].
    rewrite last_seqZ. simpl. lia.
Qed.

Lemma namesAgree_spec (events : list string) (recordedEvents : list EvH) :
  length recordedEvents = length events →
  namesAgree events recordedEvents = bool_decide (name <$> recordedEvents = events).
Proof.
  revert events. induction recordedEvents as [|recorded rest IH]; intros events Hlen.
  - destruct events; [|done]. by rewrite bool_decide_eq_true_2.
  - destruct events as [|expected others]; [done|]. simpl.
    case_decide as Hne.
    + symmetry. apply bool_decide_eq_false_2. intros [= Heq _]. by apply Hne.
    + subst. rewrite IH by (simpl in Hlen; lia).
      apply bool_decide_ext. split; [by intros <-|]. by intros [= <-].
Qed.

(** X24. What the assertion on recorded names checks, and what it uses up.
    After a callback that returned, [toRecordEvents(names)] on a live
    instance answers true exactly when the names of the pending events, in
    their order, are the names given.  It takes the pending events away:
    asked a second time right after, it answers true for the empty list only.
    After a callback that failed it answers false and takes nothing. *)
Theorem toRecordEvents_checks_and_consumes (instance : ref) (events : list string)
    (w : WH) (data : AggregateData PayloadT) (e : Error) :
  aggregatesData w !! instance = Some data →
  ∃ w',
    toRecordEvents instance (Ok tt) events w
    = (Ok (bool_decide (name <$> recordedEvents data = events)), w')
    ∧ (∀ again, ∃ w'',
         toRecordEvents instance (Ok tt) again w' = (Ok (bool_decide (again = [])), w''))
    ∧ toRecordEvents instance (Throw e) events w = (Ok false, w).
Proof.
  intros Hdata.
  assert (∀ (w0 : WH) d names, aggregatesData w0 !! instance = Some d →
            toRecordEvents instance (Ok tt) names w0
            = (Ok (bool_decide (name <$> recordedEvents d = names)),
               set_aggregatesData
                 (<[instance := {| state := state d; data_version := data_version d;
                                   recordedEvents := [] |}]> (aggregatesData w0)) w0))
    as Hrun.
  { intros w0 d names Hd. unfold toRecordEvents, bind, popRecordedEvents. rewrite Hd.
    case_decide as Hlen.
    - unfold ret. f_equal. f_equal. symmetry. apply bool_decide_eq_false_2.
      intros Heq. apply Hlen. by rewrite <- Heq, length_fmap.
    - unfold ret. do 2 f_equal. apply namesAgree_spec. lia. }
  eexists. split; [by apply Hrun|]. split; [|done].
  intros again. eexists. erewrite Hrun; [|simpl; apply lookup_insert_eq].
  simpl recordedEvents. f_equal. f_equal. apply bool_decide_ext. simpl. split; by intros <-.
Qed.

(** What reducers leave in the heap after the loop of [loadAggregate]. *)
Lemma applyEvents_reducers (options : OptH) reduce (instance st : ref)
    (newEvents : list EvH) (w : WH) :
  reducers options reduce →
  (∀ event, event ∈ newEvents → is_Some (handlerOf options (name event))) →
  heap (applyEvents options instance st newEvents w).2
  = alter (reduceAll reduce (eventOf <$> newEvents)) st (heap w).
Proof.
  intros Hred. revert w.
  induction newEvents as [|event rest IH]; intros w Hall.
  - simpl. symmetry. by apply alter_id.
  - simpl applyEvents.
    destruct (Hall event) as [handler Hh]; [by left|]. rewrite Hh.
    unfold bind at 1, callHandler. rewrite (Hred _ _ Hh).
    unfold bind at 1, setVersion, modify.
    rewrite IH by (intros ? ?; apply Hall; by right).
    simpl heap. rewrite alter_alter_eq. reflexivity.
Qed.

Lemma reducers_handled (options : OptH) reduce (event : EvH) :
  reducers options reduce →
  is_Some (handlerOf options (name event)) → handled options event.
Proof.
  intros Hred [handler Hh]. exists handler. split; [done|].
  intros st e h. by rewrite (Hred _ _ Hh).
Qed.

(** What a sequence of [recordThat] calls leaves, for a live instance whose
    handlers are reducers. *)
Lemma recordThatAll_spec (instance : AggregateInstance StateT PayloadT) reduce
    (events : list (IEvent PayloadT)) (w : WH) (obj : ref)
    (data : AggregateData PayloadT) :
  reducers (options instance) reduce →
  scopes w !! scope instance = Some (Some obj) →
  aggregatesData w !! obj = Some data →
  ∃ (w' : WH) (recs : list EvH),
    recordThatAll instance events w = (Ok tt, w')
    ∧ eventOf <$> recs
      = filter (λ event, is_Some (handlerOf (options instance) (ev_name event))) events
    ∧ version <$> recs = seqZ (data_version data + 1) (Z.of_nat (length recs))
    ∧ aggregatesData w'
      = <[obj := {| state := state data;
                    data_version := data_version data + Z.of_nat (length recs);
                    recordedEvents := recordedEvents data ++ recs |}]> (aggregatesData w)
    ∧ heap w' = alter (reduceAll reduce (eventOf <$> recs)) (state data) (heap w)
    ∧ scopes w' = scopes w
    ∧ aggregateDefinitions w' = aggregateDefinitions w
    ∧ next w' = next w.
Proof.
  intros Hred. revert w data.
  induction events as [|event rest IH]; intros w data Hscope Hdata.
  - exists w, []. split; [done|]. split; [done|]. split; [done|].
    split.
    { symmetry. apply insert_id. rewrite Hdata. f_equal. destruct data; simpl.
      f_equal; [lia|by rewrite app_nil_r]. }
    split; [symmetry; by apply alter_id|]. done.
  - simpl recordThatAll. unfold bind at 1, recordThat.
    rewrite filter_cons.
    destruct (handlerOf (options instance) (ev_name event)) as [handler|] eqn:Hh.
    + rewrite decide_True by done.
      unfold bind at 1, recordEvent, instanceVar. rewrite Hscope.
      cbn [from_option id lookupData ev_name ev_payload]. rewrite Hdata.
      unfold bind at 1, closure_state, bind at 1, aggregateData, instanceVar.
      cbn [scopes set_aggregatesData]. rewrite Hscope.
      cbn [from_option id lookupData aggregatesData set_aggregatesData].
      rewrite lookup_insert_eq. unfold ret at 1. cbn [state].
      unfold callHandler. rewrite (Hred _ _ Hh). cbn [heap set_aggregatesData].
      match goal with
      | |- context [recordThatAll instance rest ?w1] =>
          destruct (IH w1 {| state := state data; data_version := data_version data + 1;
                             recordedEvents :=
                               recordedEvents data ++
                               [{| name := ev_name event; payload := ev_payload event;
                                   occuredAt := now w;
                                   version := data_version data + 1 |}] |})
            as (w' & recs & Hrun & Hevents & Hversions & Hagg & Hheap & Hsc & Hdefs & Hnext);
            [exact Hscope|simpl; apply lookup_insert_eq|]
      end.
      cbn [state data_version recordedEvents heap aggregatesData scopes
           aggregateDefinitions next set_heap set_aggregatesData] in *.
      exists w', ({| name := ev_name event; payload := ev_payload event;
                     occuredAt := now w; version := data_version data + 1 |} :: recs).
      split; [exact Hrun|]. split.
      { rewrite fmap_cons, Hevents. f_equal. by destruct event. }
      split.
      { rewrite fmap_cons, Hversions. simpl length. cbn [version].
        rewrite (seqZ_cons (data_version data + 1)) by lia. f_equal. f_equal; lia. }
      split.
      { rewrite Hagg, insert_insert_eq. f_equal. f_equal; [simpl length; lia|].
        by rewrite <- app_assoc. }
      split.
      { rewrite Hheap, alter_alter_eq. apply alter_ext. intros x _.
        destruct event; reflexivity. }
      done.
    + rewrite decide_False by (by intros [? ?]).
      unfold ret at 1. apply IH; done.
Qed.

(** X25. Replaying what was recorded gives the same state.  For a defined
    aggregate whose handlers are reducers: create an instance, let its
    actions call [recordThat] any number of times, and take the pending
    events with [popRecordedEvents].  The events taken are those that have a
    handler, numbered from 1.  [loadAggregate] on them succeeds and returns
    another instance, with a state object of its own, whose state has the
    same content and whose version is the same as those of the instance that
    recorded them. *)
Theorem replay_reproduces_state (w : WH) (definition : OptH) reduce (id id' : string)
    (events : list (IEvent PayloadT)) :
  aggregateDefinitions w !! opt_name definition = Some definition →
  reducers definition reduce →
  ∃ instance recorded w1 replayed w2,
    (let! instance := create definition id in
     let! _ := recordThatAll instance events in
     let! recorded := popRecordedEvents (self instance) in
     ret (instance, recorded)) w = (Ok (instance, recorded), w1)
    ∧ eventOf <$> recorded
      = filter (λ event, is_Some (handlerOf definition (ev_name event))) events
    ∧ version <$> recorded = seqZ 1 (Z.of_nat (length recorded))
    ∧ loadAggregate (opt_name definition) id' recorded None w1 = (Ok replayed, w2)
    ∧ self replayed ≠ self instance
    ∧ (state <$> aggregatesData w2 !! self replayed)
      ≠ (state <$> aggregatesData w2 !! self instance)
    ∧ storedState (self instance) w2
      = Some (reduceAll reduce (eventOf <$> recorded) (initialState definition))
    ∧ storedState (self replayed) w2 = storedState (self instance) w2
    ∧ (data_version <$> aggregatesData w2 !! self replayed)
      = (data_version <$> aggregatesData w2 !! self instance)
    ∧ (data_version <$> aggregatesData w2 !! self instance)
      = Some (Z.of_nat (length recorded)).
Proof.
  intros Hdef Hred.
  set (instance := {| self := Pos.succ (next w); scope := next w; inst_id := id;
                      options := definition |}).
  set (wc := (create definition id w).2).
  destruct (recordThatAll_spec instance reduce events wc (Pos.succ (next w))
              {| state := Pos.succ (Pos.succ (next w)); data_version := 0;
                 recordedEvents := [] |} Hred)
    as (wr & recs & Hrun & Hevents & Hversions & Hagg & Hheap & Hsc & Hdefs & Hnext).
  { simpl. apply lookup_insert_eq. }
  { simpl. apply lookup_insert_eq. }
  cbn [state data_version recordedEvents] in *.
  rewrite app_nil_l in Hagg. replace (0 + 1) with 1 in Hversions by lia.
  set (w1 := set_aggregatesData
               (<[Pos.succ (next w) :=
                    {| state := Pos.succ (Pos.succ (next w));
                       data_version := 0 + Z.of_nat (length recs);
                       recordedEvents := [] |}]> (aggregatesData wr)) wr).
  assert ((let! instance := create definition id in
           let! _ := recordThatAll instance events in
           let! recorded := popRecordedEvents (self instance) in
           ret (instance, recorded)) w = (Ok (instance, recs), w1)) as Hfirst.
  { unfold bind at 1.
    change (create definition id w) with (Ok instance, wc).
    unfold bind at 1. rewrite Hrun.
    unfold bind at 1, popRecordedEvents. simpl self.
    assert (aggregatesData wr !! Pos.succ (next w)
            = Some {| state := Pos.succ (Pos.succ (next w));
                      data_version := 0 + Z.of_nat (length recs);
                      recordedEvents := recs |}) as ->
      by (rewrite Hagg; apply lookup_insert_eq).
    reflexivity. }
  assert (aggregateDefinitions w1 !! opt_name definition = Some definition) as Hdef1.
  { subst w1. cbn [aggregateDefinitions set_aggregatesData]. by rewrite Hdefs. }
  assert (next w1 = Pos.succ (Pos.succ (Pos.succ (next w)))) as Hnext1.
  { subst w1. cbn [next set_aggregatesData]. by rewrite Hnext. }
  destruct (loadAggregate_prelude w1 (opt_name definition) id' None definition Hdef1)
    as (w1' & Hu). cbv zeta in Hu.
  destruct Hu as (Hdata' & Hother' & Hheap' & _ & Hload).
  assert (∀ event, event ∈ recs → is_Some (handlerOf definition (name event))) as Hhas.
  { intros event Hin.
    assert (eventOf event ∈ eventOf <$> recs) as Hin' by by apply list_elem_of_fmap_2.
    rewrite Hevents in Hin'. by apply list_elem_of_filter in Hin' as [? _]. }
  assert (∀ event, event ∈ recs → handled definition event) as Hhandled.
  { intros event Hin. by eapply reducers_handled, Hhas. }
  assert (newEventsOf recs None = recs) as Hnew.
  { unfold newEventsOf. simpl keptEvents. apply toSorted_ascending.
    rewrite Hversions. apply seqZ_sorted. }
  destruct (applyEvents_ok definition (Pos.succ (next w1))
              (Pos.succ (Pos.succ (next w1))) recs w1' _ Hhandled Hdata')
    as (w2 & Happly & Hdata2).
  pose proof (applyEvents_reducers definition reduce (Pos.succ (next w1))
                (Pos.succ (Pos.succ (next w1))) recs w1' Hred Hhas) as Hheap2.
  pose proof (applyEvents_frame definition (Pos.succ (next w1))
                (Pos.succ (Pos.succ (next w1))) recs w1') as (_ & Hother2 & _).
  rewrite Happly in Hheap2, Hother2. simpl snd in Hheap2, Hother2.
  cbn [state data_version recordedEvents snapshotVersion] in Hdata2.
  assert (aggregatesData w2 !! Pos.succ (next w)
          = Some {| state := Pos.succ (Pos.succ (next w));
                    data_version := 0 + Z.of_nat (length recs);
                    recordedEvents := [] |}) as Hmine.
  { rewrite Hother2 by (rewrite Hnext1; lia). rewrite Hother' by (rewrite Hnext1; lia).
    subst w1. cbn [aggregatesData set_aggregatesData]. apply lookup_insert_eq. }
  assert (default 0 (last (version <$> recs)) = 0 + Z.of_nat (length recs)) as Hlast.
  { rewrite Hversions. destruct (length recs) as [|n]; [done|].
    rewrite last_seqZ. simpl. lia. }
  assert (loadAggregate (opt_name definition) id' recs None w1
          = (Ok {| self := Pos.succ (next w1); scope := next w1; inst_id := id';
                   options := definition |},
             match recs with [] => w1' | _ :: _ => w2 end)) as Hsecond.
  { rewrite Hload. destruct recs as [|first rest] eqn:Hrecs; [done|].
    destruct (opt_events definition) as [handlers|] eqn:Hopt.
    2:{ destruct (Hhas first) as [handler Hh]; [by left|].
        unfold handlerOf in Hh. by rewrite Hopt in Hh. }
    rewrite Hnew.
    rewrite decide_False.
    2:{ intros Hne. apply Hne. simpl length in Hversions.
        rewrite fmap_cons, seqZ_cons in Hversions by lia. simpl. by injection Hversions. }
    assert (areEventsContinous (first :: rest) = true) as ->.
    { apply areEventsContinous_run. eexists. by rewrite Hversions. }
    simpl negb. cbv iota. unfold bind at 1. by rewrite Happly. }
  exists instance, recs, w1.
  exists {| self := Pos.succ (next w1); scope := next w1; inst_id := id';
            options := definition |}.
  exists (match recs with [] => w1' | _ :: _ => w2 end).
  split; [exact Hfirst|]. split; [exact Hevents|]. split; [exact Hversions|].
  split; [exact Hsecond|]. cbn [self].
  change (self instance) with (Pos.succ (next w)).
  assert (heap w1 = alter (reduceAll reduce (eventOf <$> recs)) (Pos.succ (Pos.succ (next w)))
                      (<[Pos.succ (Pos.succ (next w)) := initialState definition]> (heap w)))
    as Hheap1.
  { subst w1. cbn [heap set_aggregatesData]. by rewrite Hheap. }
  assert (∀ wf : WH,
            wf = match recs with [] => w1' | _ :: _ => w2 end →
            aggregatesData wf !! Pos.succ (next w1)
            = Some {| state := Pos.succ (Pos.succ (next w1));
                      data_version := 0 + Z.of_nat (length recs);
                      recordedEvents := [] |}
            ∧ aggregatesData wf !! Pos.succ (next w)
              = Some {| state := Pos.succ (Pos.succ (next w));
                        data_version := 0 + Z.of_nat (length recs);
                        recordedEvents := [] |}
            ∧ heap wf = alter (reduceAll reduce (eventOf <$> recs))
                          (Pos.succ (Pos.succ (next w1)))
                          (<[Pos.succ (Pos.succ (next w1)) := initialState definition]>
                             (heap w1))) as Hfinal.
  { intros wf ->. destruct recs as [|first rest] eqn:Hrecs.
    - split; [exact Hdata'|]. split.
      + rewrite Hother' by (rewrite Hnext1; lia).
        subst w1. cbn [aggregatesData set_aggregatesData]. apply lookup_insert_eq.
      + rewrite Hheap'. symmetry. by apply alter_id.
    - split; [by rewrite Hdata2, Hlast|]. split; [exact Hmine|].
      by rewrite Hheap2, Hheap'. }
  destruct (Hfinal _ eq_refl) as (Hrep & Hrec & Hh). clear Hfinal.
  set (wf := match recs with [] => w1' | _ :: _ => w2 end) in *.
  split; [rewrite Hnext1; lia|].
  split; [rewrite Hrep, Hrec, Hnext1; simpl; intros [= ?]; lia|].
  assert (storedState (Pos.succ (next w)) wf
          = Some (reduceAll reduce (eventOf <$> recs) (initialState definition))) as Hst.
  { unfold storedState. rewrite Hrec. cbn [state]. rewrite Hh.
    rewrite lookup_alter_ne, lookup_insert_ne by (rewrite Hnext1; lia).
    rewrite Hheap1. by rewrite lookup_alter_eq, lookup_insert_eq. }
  split; [exact Hst|]. split.
  { rewrite Hst. unfold storedState. rewrite Hrep. cbn [state]. rewrite Hh.
    by rewrite lookup_alter_eq, lookup_insert_eq. }
  split; [by rewrite Hrep, Hrec|]. by rewrite Hrec.
Qed.

End HistoryUse.

(* ===================================================================== *)
(** * Facts: what a save and a load do around the store                   *)
(* ===================================================================== *)

Section RepositoryUse.

Context {StateT PayloadT ExtT : Type}.

Local Abbreviation SysU := (Sys StateT PayloadT ExtT).
Local Abbreviation RepoU := (Repository PayloadT ExtT).
Local Abbreviation InstU := (AggregateInstance StateT PayloadT).
Local Abbreviation OptU := (AggregateOptions StateT PayloadT).

Ltac run_body :=
  unfold saveRecorded, load_body, bind, external, storeCall, await, detached, throw, ret,
         modify, liftW, aggregateData, lookupData;
  repeat (cbn [fst snd calls ext world unhandled mutex set_world set_mutex];
          case_match; simplify_eq);
  cbn [fst snd calls ext world unhandled mutex set_world set_mutex].

(** The statements of [save] after the pop touch neither the registry nor
    the mutex. *)
Lemma saveRecorded_frame (r : RepoU) (aggregate : InstU) (definition : OptU)
    first rest (s : SysU) :
  world (saveRecorded r aggregate definition first rest s).2 = world s
  ∧ mutex (saveRecorded r aggregate definition first rest s).2 = mutex s.
Proof. run_body; done. Qed.

Lemma save_body_mutex (r : RepoU) (aggregate : InstU) (s : SysU) :
  mutex (save_body r aggregate s).2 = mutex s.
Proof.
  unfold save_body, bind at 1, liftW at 1, popRecordedEvents.
  destruct (aggregatesData (world s) !! self aggregate) as [data|]; [|done].
  unfold bind at 1, liftW at 1, getAggregateDefinition.
  cbn [world set_world aggregateDefinitions set_aggregatesData].
  destruct (aggregateDefinitions (world s) !! aggregateName aggregate); [|done].
  destruct (recordedEvents data) as [|first rest]; [done|].
  by rewrite (proj2 (saveRecorded_frame _ _ _ _ _ _)).
Qed.

Lemma load_body_mutex (r : RepoU) (aggregateDefinition : OptU) (id : string) (s : SysU) :
  mutex (load_body r aggregateDefinition id s).2 = mutex s.
Proof.
  unfold load_body, bind, storeCall, await, liftW, ret, throw.
  repeat (cbn [fst snd calls ext world unhandled mutex set_world set_mutex];
          case_match; simplify_eq);
  cbn [fst snd calls ext world unhandled mutex set_world set_mutex]; done.
Qed.

(** X16. The lock is given back on every way out.  Whatever [save] and
    [load] do and however they end (a return, an early return, an error of
    the library, a failure of a listener or of the store), the mutex they
    leave is the one they found after exactly one [release] of their key:
    nothing else in the bodies touches it. *)
Theorem save_and_load_release_their_key (r : RepoU) (aggregate : InstU)
    (aggregateDefinition : OptU) (id : string) (s : SysU) :
  mutex (save r aggregate s).2 = Mutex.release (save_lock_key aggregate) (mutex s)
  ∧ mutex (load r aggregateDefinition id s).2
    = Mutex.release (load_lock_key aggregateDefinition id) (mutex s).
Proof.
  split.
  - unfold save, usingLock.
    pose proof (save_body_mutex r aggregate s) as Hm.
    destruct (save_body r aggregate s) as [res s']. simpl in *. by rewrite Hm.
  - unfold load, usingLock.
    pose proof (load_body_mutex r aggregateDefinition id s) as Hm.
    destruct (load_body r aggregateDefinition id s) as [res s']. simpl in *. by rewrite Hm.
Qed.

(** X17. A save with nothing pending is silent.  For a live instance of a
    defined aggregate with no pending event, [save] returns without calling
    the store, without telling any listener ([ext], the world outside, is as
    it was), without an unhandled rejection, and the record of the instance
    is as before. *)
Theorem save_nothing_pending (r : RepoU) (aggregate : InstU) (s : SysU)
    (data : AggregateData PayloadT) :
  aggregatesData (world s) !! self aggregate = Some data →
  recordedEvents data = [] →
  is_Some (aggregateDefinitions (world s) !! aggregateName aggregate) →
  (save r aggregate s).1 = Ok tt
  ∧ calls (save r aggregate s).2 = calls s
  ∧ ext (save r aggregate s).2 = ext s
  ∧ unhandled (save r aggregate s).2 = unhandled s
  ∧ aggregatesData (world (save r aggregate s).2) !! self aggregate = Some data
  ∧ heap (world (save r aggregate s).2) = heap (world s).
Proof.
  intros Hdata Hpending [definition Hdef].
  rewrite save_result, save_calls, save_world.
  unfold save, usingLock.
  rewrite (save_body_idle r aggregate s data Hdata Hpending), Hdef.
  cbn [fst snd calls ext unhandled world set_world set_mutex aggregatesData
       set_aggregatesData heap].
  repeat split; try done.
  rewrite lookup_insert_eq. destruct data; simpl in *. by subst.
Qed.

(** X18. A save always empties the pending events.  For a live instance,
    whatever the outcome of [save] (success, [ConcurrencyError], an
    undefined aggregate, a failing listener or store), the record of the
    instance afterwards has the same state object and version and no pending
    event: events of a failed save are not put back. *)
Theorem save_always_clears_pending (r : RepoU) (aggregate : InstU) (s : SysU)
    (data : AggregateData PayloadT) :
  aggregatesData (world s) !! self aggregate = Some data →
  aggregatesData (world (save r aggregate s).2) !! self aggregate
  = Some {| state := state data; data_version := data_version data;
            recordedEvents := [] |}.
Proof.
  intros Hdata. rewrite save_world.
  destruct (recordedEvents data) as [|first rest] eqn:Hpending.
  - rewrite (save_body_idle r aggregate s data Hdata Hpending).
    cbn [snd world set_world aggregatesData set_aggregatesData].
    apply lookup_insert_eq.
  - destruct (save_body_pending r aggregate s data first rest Hdata Hpending)
      as (w0 & Hw0 & Hbody).
    rewrite Hbody.
    destruct (aggregateDefinitions (world s) !! aggregateName aggregate) as [definition|].
    + by rewrite (proj1 (saveRecorded_frame _ _ _ _ _ _)).
    + done.
Qed.

(** X19. The store calls of a save, in order.  For a live instance of a
    defined aggregate with pending events, the calls [save] makes on the
    store are an initial part of: [getAggregateVersion], then [saveEvents]
    with all the pending events as stream events, then [saveSnapshot] with
    the version of the last pending event and the state object of the
    record.  Without a snapshot store there are at most the first two. *)
Theorem save_store_calls_in_order (r : RepoU) (aggregate : InstU) (s : SysU)
    (data : AggregateData PayloadT) (definition : OptU) first rest :
  aggregatesData (world s) !! self aggregate = Some data →
  recordedEvents data = first :: rest →
  aggregateDefinitions (world s) !! aggregateName aggregate = Some definition →
  ∃ made reported saved stored,
    calls (save r aggregate s).2 = calls s ++ made
    ∧ made `prefix_of`
        [GetAggregateVersion (opt_name definition) (inst_id aggregate) reported;
         SaveEvents (aggregateEventToStreamEvent (inst_id aggregate)
                       (aggregateName aggregate) <$> first :: rest) saved;
         SaveSnapshot (opt_name definition) (inst_id aggregate)
           {| snap_version := version (List.last rest first);
              snap_state := state data |} stored]
    ∧ (snapshotStore (store r) = None → (length made ≤ 2)%nat).
Proof.
  intros Hdata Hpending Hdef. rewrite save_calls.
  destruct (save_body_pending r aggregate s data first rest Hdata Hpending)
    as (w0 & Hw0 & Hbody).
  rewrite Hbody, Hdef. clear Hbody.
  unfold saveRecorded, bind, external, storeCall, await, detached, throw, ret,
         modify, liftW, aggregateData, lookupData, lastVersion.
  repeat (cbn [fst snd calls ext world unhandled mutex set_world] in *;
          case_match; simplify_eq);
    cbn [fst snd calls ext world unhandled mutex set_world state] in *;
    rewrite <- ?app_assoc; simpl app;
    try (exists []; exists (Value 0), (Value tt), (Value tt);
         split; [by rewrite app_nil_r|]; split; [apply prefix_nil|simpl; lia]);
    try (eexists [_]; eexists _, (Value tt), (Value tt);
         split; [reflexivity|]; split;
         [by apply prefix_cons, prefix_nil|simpl; lia]);
    try (eexists [_; _]; eexists _, _, (Value tt);
         split; [reflexivity|]; split;
         [by do 2 apply prefix_cons; apply prefix_nil|simpl; lia]);
    try (eexists [_; _; _]; eexists _, _, _;
         split; [reflexivity|]; split; [done|done]).
Qed.

(** X20. A load on a store without snapshots.  [load] asks the store for
    the history since version 0 and makes no other store call.  If that call
    fails, [load] fails with the same failure and the registry is as it was:
    no instance is created.  Otherwise [load] ends as [loadAggregate] does
    on the events the store gave, taken as aggregate events, without a
    snapshot. *)
Theorem load_without_snapshots (r : RepoU) (aggregateDefinition : OptU)
    (id : string) (s : SysU) :
  snapshotStore (store r) = None →
  calls (load r aggregateDefinition id s).2
  = calls s ++ [LoadHistory (opt_name aggregateDefinition) id 0]
  ∧ match (loadHistory (store r) (opt_name aggregateDefinition) id 0 (ext s)).1 with
    | Value streamEvents =>
        ((load r aggregateDefinition id s).1, world (load r aggregateDefinition id s).2)
        = loadAggregate (opt_name aggregateDefinition) id
            (streamEventToAggregateEvent <$> streamEvents) None (world s)
    | SyncThrow what | Rejection what =>
        (load r aggregateDefinition id s).1 = Throw (Foreign what)
        ∧ world (load r aggregateDefinition id s).2 = world s
    end.
Proof.
  intros Hnone. unfold load, usingLock, load_body. rewrite Hnone.
  unfold bind, storeCall, await, liftW, ret, throw. simpl snapshotVersion.
  destruct (loadHistory (store r) (opt_name aggregateDefinition) id 0 (ext s))
    as [[streamEvents|what|what] x]; cbn [fst snd calls world set_world set_mutex].
  - destruct (loadAggregate _ _ _ _ _) as [res w']; done.
  - done.
  - done.
Qed.

(** X21. A load on a store with snapshots.  [load] first asks for the
    snapshot.  If that fails, [load] fails with the same failure, the
    history is not asked for and the registry is as it was.  Otherwise the
    second and last store call asks for the history since the version of the
    snapshot (since 0 when there is none), and on its success [load] ends as
    [loadAggregate] does on these events with this snapshot. *)
Theorem load_with_snapshots (r : RepoU) (aggregateDefinition : OptU)
    (id : string) (s : SysU) (snapshots : ISnapshotStore ExtT) :
  snapshotStore (store r) = Some snapshots →
  match loadSnapshot snapshots (opt_name aggregateDefinition) id (ext s) with
  | (Value snapshot, x) =>
      calls (load r aggregateDefinition id s).2
      = calls s ++ [LoadSnapshot (opt_name aggregateDefinition) id;
                    LoadHistory (opt_name aggregateDefinition) id
                      (snapshotVersion snapshot)]
      ∧ ∀ streamEvents,
          (loadHistory (store r) (opt_name aggregateDefinition) id
             (snapshotVersion snapshot) x).1 = Value streamEvents →
          ((load r aggregateDefinition id s).1, world (load r aggregateDefinition id s).2)
          = loadAggregate (opt_name aggregateDefinition) id
              (streamEventToAggregateEvent <$> streamEvents) snapshot (world s)
  | (SyncThrow what, _) | (Rejection what, _) =>
      (load r aggregateDefinition id s).1 = Throw (Foreign what)
      ∧ calls (load r aggregateDefinition id s).2
        = calls s ++ [LoadSnapshot (opt_name aggregateDefinition) id]
      ∧ world (load r aggregateDefinition id s).2 = world s
  end.
Proof.
  intros Hsome. unfold load, usingLock, load_body. rewrite Hsome.
  unfold bind, storeCall, await, liftW, ret, throw.
  destruct (loadSnapshot snapshots (opt_name aggregateDefinition) id (ext s))
    as [[snapshot|what|what] x]; cbn [fst snd calls ext world set_world set_mutex];
    [|done..].
  destruct (loadHistory (store r) (opt_name aggregateDefinition) id
              (snapshotVersion snapshot) x)
    as [[streamEvents|what|what] x']; cbn [fst snd calls ext world set_world set_mutex].
  - destruct (loadAggregate _ _ _ _ _) as [res w'] eqn:Hload.
    cbn [fst snd calls ext world set_world set_mutex].
    split; [by rewrite <- app_assoc|]. intros ? [= <-]. by rewrite Hload.
  - split; [by rewrite <- app_assoc|]. done.
  - split; [by rewrite <- app_assoc|]. done.
Qed.

(** X22. What is saved comes back as it was recorded.  The stream events
    [save] builds from recorded events, turned back into aggregate events
    the way [load] does, are the recorded events: name, payload, time and
    version survive, whatever the identifier and the aggregate name. *)
Theorem stream_events_round_trip (id aggregateName : string)
    (events : list (AggregateEvent PayloadT)) :
  streamEventToAggregateEvent <$> (aggregateEventToStreamEvent id aggregateName <$> events)
  = events.
Proof.
  rewrite <- list_fmap_compose. rewrite <- (list_fmap_id events) at 2.
  apply list_fmap_ext. intros _ [n p o v] _. reflexivity.
Qed.

End RepositoryUse.

(* ===================================================================== *)
(** * The properties on the aggregates of the test suite                  *)
(* ===================================================================== *)

Module Examples.
Import Fixtures.

(** C2 as stated fails.  After [dispose], the registry operations given the
    handle itself still find its record: [aggregateData] returns it,
    [recordEvent] records, [popRecordedEvents] returns the pending event. *)
Lemma disposed_handle_still_registered :
  match disposedSetup with
  | (Ok my, w) =>
      instanceVar my w = None
      ∧ (aggregateData (Some (self my)) w).1 ≠ Throw InstanceDoesNotExistError
      ∧ (recordEvent (Some (self my)) {| ev_name := "NumbersAdded"; ev_payload := (1, 1) |} w).1
          = Ok tt
      ∧ (popRecordedEvents (self my) w).1
          = Ok [{| name := "NumbersAdded"; payload := (1, 2); occuredAt := 1000; version := 1 |}]
  | _ => False
  end.
Proof. vm_compute. repeat split. discriminate. Qed.

(** C3: [this.state()] hands out the live state object.  With the aggregate
    [Agg] created with state [{ test: 1 }], the reference that [this.state()]
    returns is the one the record keeps, and after [this.state().test += 666]
    the state stored in the record reads 667. *)
Lemma state_accessor_is_live_reference :
  match aggSetup with
  | (Ok agg, w) =>
      ∃ st, this_state agg w = (Ok st, w)
            ∧ (state <$> aggregatesData w !! self agg) = Some st
            ∧ storedState (self agg) w = Some 1
            ∧ storedState (self agg) (writeObject st (λ test, test + 666) w).2 = Some 667
  | _ => False
  end.
Proof. vm_compute. eexists. repeat split. Qed.

(** C1: the key of [save] is not [aggregateName:id].  For the instance
    [cart-1] of [ShoppingCart], [save] locks the name followed by the source
    text of the method [id], [load] locks [ShoppingCart:cart-1]; the instance
    [cart-2] gets the key of [cart-1] in [save].  So on one mutex a save of
    [cart-2] queues behind a save of [cart-1], and a load of [cart-1] is
    granted while the save of [cart-1] holds its lock. *)
Lemma save_lock_key_is_not_name_and_id :
  save_lock_key cart1 = ("ShoppingCart:" ++ id_method_source)%string
  ∧ load_lock_key ShoppingCart (inst_id cart1) = "ShoppingCart:cart-1"
  ∧ save_lock_key cart1 ≠ load_lock_key ShoppingCart (inst_id cart1)
  ∧ inst_id cart1 ≠ inst_id cart2
  ∧ save_lock_key cart1 = save_lock_key cart2
  ∧ let m := Mutex.run [Mutex.Aqquire (save_lock_key cart1) 0%nat;
                        Mutex.Aqquire (save_lock_key cart2) 1%nat;
                        Mutex.Aqquire (load_lock_key ShoppingCart (inst_id cart1)) 2%nat]
               Mutex.empty in
    Mutex.resolved m = [(save_lock_key cart1, 0%nat);
                        (load_lock_key ShoppingCart (inst_id cart1), 2%nat)]
    ∧ Mutex.waiters (save_lock_key cart2) m = [1%nat].
Proof. vm_compute. repeat split; discriminate. Qed.

(** C7 as stated fails.  For the history versions [2, 4] without a snapshot
    an adjacent pair does not increase by 1, yet replay does not fail with
    the continuity error: the start-offset check comes first and fails. *)
Lemma continuity_error_after_start_check :
  let history := [numbersAddedAt 2; numbersAddedAt 4] in
  let result := (loadAggregate "My aggregate" "agg-1" history None myWorld).1 in
  adjacentBreak (version <$> newEventsOf history None)
  ∧ result ≠ Throw EventsNotContinous
  ∧ result = Throw EventsDontStartAfterSnapshot.
Proof.
  split; [|split; [vm_compute; discriminate | vm_compute; reflexivity]].
  exists 0%nat, 2, 4. vm_compute. repeat split. discriminate.
Qed.

(** C7 on the history versions [1, 2, 4]: the continuity error. *)
Lemma replay_checks_witness :
  let history := [numbersAddedAt 1; numbersAddedAt 2; numbersAddedAt 4] in
  aggregateDefinitions myWorld !! "My aggregate" = Some MyAggregate
  ∧ newEventsOf history None = history
  ∧ (loadAggregate "My aggregate" "agg-1" history None myWorld).1 = Throw EventsNotContinous.
Proof.
  split; [reflexivity|]. split; [reflexivity|].
  apply (replay_checks myWorld "My aggregate" "agg-1"
           [numbersAddedAt 1; numbersAddedAt 2; numbersAddedAt 4] None MyAggregate
           {[ "NumbersAdded" := NumbersAdded ]} (numbersAddedAt 1)
           [numbersAddedAt 2; numbersAddedAt 4]); [reflexivity..|].
  split; [reflexivity|]. exists 1%nat, 2, 4. repeat split. discriminate.
Defined.

(** C7 on a history that starts at version 2 without a snapshot: the
    start-offset error. *)
Example replay_from_version_2 :
  (loadAggregate "My aggregate" "agg-1" [numbersAddedAt 2; numbersAddedAt 3] None myWorld).1
  = Throw EventsDontStartAfterSnapshot.
Proof. vm_compute. reflexivity. Qed.

(** C8 on the two events of [tests/aggregate.spec.ts], given out of order:
    the version after replay is 2. *)
Lemma replay_version_witness :
  let history := [numbersAddedAt 2; numbersAddedAt 1] in
  aggregateDefinitions myWorld !! "My aggregate" = Some MyAggregate
  ∧ ∃ instance w',
      loadAggregate "My aggregate" "agg-1" history None myWorld = (Ok instance, w')
      ∧ data_version <$> aggregatesData w' !! self instance = Some 2.
Proof.
  split; [reflexivity|].
  apply (replay_version myWorld "My aggregate" "agg-1"
           [numbersAddedAt 2; numbersAddedAt 1] None MyAggregate 2).
  - reflexivity.
  - apply perm_swap.
  - right. eexists. reflexivity.
  - intros event Hin. exists NumbersAdded. split; [|reflexivity].
    apply elem_of_cons in Hin as [->|Hin]; [reflexivity|].
    apply list_elem_of_singleton in Hin as ->. reflexivity.
Defined.

(** C8 from a snapshot at version 4 with the versions 3 to 6 supplied: the
    events up to 4 are dropped and the version after replay is 6; with no
    event supplied it is 4. *)
Example replay_from_snapshot :
  let snapshot := Some {| snap_version := 4; snap_state := 9%positive |} in
  let history := [numbersAddedAt 6; numbersAddedAt 3; numbersAddedAt 5; numbersAddedAt 4] in
  ((let! instance := loadAggregate "My aggregate" "agg-1" history snapshot in
    aggregateData (Some (self instance))) myWorld).1
  = Ok {| state := 9%positive; data_version := 6; recordedEvents := [] |}
  ∧ ((let! instance := loadAggregate "My aggregate" "agg-1" [] snapshot in
      aggregateData (Some (self instance))) myWorld).1
    = Ok {| state := 9%positive; data_version := 4; recordedEvents := [] |}.
Proof. vm_compute. split; reflexivity. Qed.

(** C10 on the cart with one pending event. *)
Lemma pop_changes_pending_only_witness :
  aggregatesData cartWorld !! self cart1 = Some cartData
  ∧ ∃ w1 w2,
      popRecordedEvents (self cart1) cartWorld = (Ok [itemAdded1], w1)
      ∧ recordEvent (Some (self cart1)) {| ev_name := "ItemAdded"; ev_payload := ("item-2", 1) |} w1
        = (Ok tt, w2)
      ∧ data_version <$> aggregatesData w2 !! self cart1 = Some 2.
Proof.
  split; [reflexivity|].
  destruct (pop_changes_pending_only cartWorld (self cart1) cartData
              {| ev_name := "ItemAdded"; ev_payload := ("item-2", 1) |} eq_refl)
    as (w1 & w2 & Hpop & _ & _ & _ & _ & _ & _ & Hrecord & Hdata).
  exists w1, w2. split; [exact Hpop|]. split; [exact Hrecord|].
  rewrite Hdata. reflexivity.
Defined.


(** C5 on a cart with one pending event, a first subscriber that returns
    and a second one that throws: [save] fails with what was thrown and the
    store is not called. *)
Lemma before_persist_failure_witness :
  let r := repository true [collectNames; failingListener] [] in
  let s := startSys cartWorld in
  aggregatesData (world s) !! self cart1 = Some cartData
  ∧ aggregateDefinitions (world s) !! aggregateName cart1 = Some ShoppingCart
  ∧ (save r cart1 s).1 = Throw (Foreign "listener failed")
  ∧ calls (save r cart1 s).2 = [].
Proof.
  intros r s. split; [reflexivity|]. split; [reflexivity|].
  apply (before_persist_failure r cart1 s cartData itemAdded1 [] ShoppingCart
           [collectNames] [] failingListener
           {| mem_events := []; mem_snapshots := ∅; mem_heard := ["ItemAdded"] |}
           "listener failed"); [reflexivity..|].
  left. reflexivity.
Defined.

(** C6 on a cart with one pending event and subscribers of [eventsPublished]
    that throw and reject: [save] returns, the event and the snapshot are in
    the store, and the two failures stay unhandled. *)
Example after_persist_failure_is_unhandled :
  let r := repository true [collectNames] [failingListener] in
  let r' := repository true [collectNames] [collectNames; rejectingListener] in
  let s := startSys cartWorld in
  (save r cart1 s).1 = Ok tt
  ∧ mem_events (ext (save r cart1 s).2)
    = [aggregateEventToStreamEvent "cart-1" "ShoppingCart" itemAdded1]
  ∧ mem_snapshots (ext (save r cart1 s).2) !! ("ShoppingCart", "cart-1")
    = Some {| snap_version := 1; snap_state := 3%positive |}
  ∧ unhandled (save r cart1 s).2 = ["listener failed"]
  ∧ (save r' cart1 s).1 = Ok tt
  ∧ unhandled (save r' cart1 s).2 = ["listener rejected"].
Proof. vm_compute. repeat split. Qed.

(** The end-to-end example of [tests/aggregate.spec.ts]: from [{ total: 1 }],
    replaying [NumbersAdded(1, 2)] and [NumbersAdded(1, 1)] gives total 6 and
    version 2. *)
Example replay_numbers_added :
  let history :=
    [{| name := "NumbersAdded"; payload := (1, 2); occuredAt := 990; version := 1 |};
     {| name := "NumbersAdded"; payload := (1, 1); occuredAt := 1000; version := 2 |}] in
  ((let! instance := loadAggregate "My aggregate" "agg-1" history None in
    let! data := aggregateData (Some (self instance)) in
    let! total := gets (storedState (self instance)) in
    ret (total, data_version data)) myWorld).1
  = Ok (Some 6, 2).
Proof. vm_compute. reflexivity. Qed.

(** ['Add number'](1, 2) on a new instance records one event with version
    1; a second pop in a row returns nothing. *)
Example pop_twice :
  ((let! definition := defineAggregateRoot MyAggregate in
    let! my := create definition "agg-2" in
    let! _ := addNumber my 1 2 in
    let! popped := popRecordedEvents (self my) in
    let! again := popRecordedEvents (self my) in
    ret (version <$> popped, again)) (emptyWorld Z (Z * Z) 1000)).1
  = Ok ([1], []).
Proof. vm_compute. reflexivity. Qed.



(** C9 on the test of [tests/Mutex.spec.ts], with another key in between:
    three acquisitions of [test1] are granted one at a time in order of
    arrival, each at the release of the one before; the acquisition of
    [test2] is granted at once. *)
Example runs_one_by_one :
  let history := [Mutex.Aqquire "test1" 0%nat; Mutex.Aqquire "test1" 1%nat;
                  Mutex.Aqquire "test2" 7%nat; Mutex.Aqquire "test1" 2%nat] in
  Mutex.resolved (Mutex.run history Mutex.empty) = [("test1", 0%nat); ("test2", 7%nat)]
  ∧ Mutex.waiters "test1" (Mutex.run history Mutex.empty) = [1%nat; 2%nat]
  ∧ Mutex.resolved (Mutex.run (history ++ [Mutex.Release "test1"; Mutex.Release "test1"])
                      Mutex.empty)
    = [("test1", 0%nat); ("test2", 7%nat); ("test1", 1%nat); ("test1", 2%nat)].
Proof. vm_compute. repeat split. Qed.

End Examples.

(* ===================================================================== *)
(** * The further facts on the aggregates of the test suite               *)
(* ===================================================================== *)

Module MoreExamples.
Import Fixtures.

(** X1 after two acquisitions of [test1] and two releases: the key is free
    and nobody waits for it. *)
Lemma free_key_has_no_waiter_witness :
  let ops := [Mutex.Aqquire "test1" 0%nat; Mutex.Aqquire "test1" 1%nat;
              Mutex.Release "test1"; Mutex.Release "test1"] in
  Mutex.holds "test1" (Mutex.run ops Mutex.empty) = false
  ∧ Mutex.waiters "test1" (Mutex.run ops Mutex.empty) = [].
Proof.
  intros ops. split; [vm_compute; reflexivity|].
  apply (MutexUse.free_key_has_no_waiter ops "test1"). vm_compute. reflexivity.
Defined.

(** X2 on two acquisitions of [test1], the first lock disposed of once:
    the second acquisition is the one holder. *)
Lemma one_holder_per_key_witness :
  let calls := [Mutex.Acquire "test1" 0%nat; Mutex.Acquire "test1" 1%nat;
                Mutex.Dispose "test1" 0%nat] in
  Mutex.disciplined Mutex.empty [] [] calls = true
  ∧ Mutex.holds "test1" (Mutex.run (Mutex.ops_of calls) Mutex.empty) = true
  ∧ Mutex.holders "test1" calls = [1%nat].
Proof.
  intros calls.
  assert (Mutex.disciplined Mutex.empty [] [] calls = true) as Hd
    by (vm_compute; reflexivity).
  assert (Mutex.holds "test1" (Mutex.run (Mutex.ops_of calls) Mutex.empty) = true) as Hh
    by (vm_compute; reflexivity).
  split; [exact Hd|]. split; [exact Hh|].
  pose proof (MutexUse.one_holder_per_key calls "test1" Hd) as Hone.
  cbv zeta in Hone. rewrite Hh in Hone. destruct Hone as (ticket & Hholders & Hlast).
  rewrite Hholders. f_equal.
  assert (last (Mutex.granted "test1" (Mutex.run (Mutex.ops_of calls) Mutex.empty))
          = Some 1%nat) as Hlast' by (vm_compute; reflexivity).
  rewrite Hlast' in Hlast. by injection Hlast.
Defined.

(** Why X2 asks that a lock object is disposed of once: when the lock of
    the first acquisition is disposed of twice, the history is not of that
    kind, and the second and the third acquisition hold [test1] at once. *)
Example lock_disposed_twice :
  let calls := [Mutex.Acquire "test1" 0%nat; Mutex.Acquire "test1" 1%nat;
                Mutex.Dispose "test1" 0%nat; Mutex.Dispose "test1" 0%nat;
                Mutex.Acquire "test1" 2%nat] in
  Mutex.disciplined Mutex.empty [] [] calls = false
  ∧ Mutex.holders "test1" calls = [1%nat; 2%nat].
Proof. vm_compute. split; reflexivity. Qed.

(** X3 with three acquisitions of [test1]: two releases serve the two
    waiters in the order they came. *)
Lemma releases_serve_waiters_in_order_witness :
  let ops := [Mutex.Aqquire "test1" 0%nat; Mutex.Aqquire "test1" 1%nat;
              Mutex.Aqquire "test1" 2%nat] in
  let m := Mutex.run ops Mutex.empty in
  (2 ≤ length (Mutex.waiters "test1" m))%nat
  ∧ Mutex.granted "test1" (Mutex.run (replicate 2 (Mutex.Release "test1")) m)
    = [0%nat; 1%nat; 2%nat].
Proof.
  intros ops m.
  assert (2 ≤ length (Mutex.waiters "test1" m))%nat as Hn by (vm_compute; lia).
  split; [exact Hn|].
  destruct (MutexUse.releases_serve_waiters_in_order ops "test1" 2 Hn) as [Hgranted _].
  etrans; [exact Hgranted|]. vm_compute. reflexivity.
Defined.

(** X5 on an object that was never an instance. *)
Lemma no_record_no_effect_witness :
  let event := {| ev_name := "NumbersAdded"; ev_payload := (1, 1) |} in
  lookupData (Some 7%positive) myWorld = None
  ∧ recordEvent (Some 7%positive) event myWorld = (Throw InstanceDoesNotExistError, myWorld).
Proof.
  intros event. split; [reflexivity|].
  destruct (no_record_no_effect (Some 7%positive) myWorld event eq_refl) as (_ & Hrecord & _).
  exact Hrecord.
Defined.

(** X6 on the cart with one pending event: two more are recorded, the
    version is 3 and the three pending events are continuous. *)
Lemma recording_keeps_versions_contiguous_witness :
  let events := [{| ev_name := "ItemAdded"; ev_payload := ("item-2", 1) |};
                 {| ev_name := "ItemRemoved"; ev_payload := ("item-1", 1) |}] in
  aggregatesData cartWorld !! self cart1 = Some cartData
  ∧ pendingContiguous cartData
  ∧ ∃ w' data',
      recordAll (Some (self cart1)) events cartWorld = (Ok tt, w')
      ∧ aggregatesData w' !! self cart1 = Some data'
      ∧ areEventsContinous (recordedEvents data') = true
      ∧ data_version data' = 3.
Proof.
  intros events. split; [reflexivity|].
  assert (pendingContiguous cartData) as Hp by (vm_compute; reflexivity).
  split; [exact Hp|].
  destruct (recording_keeps_versions_contiguous (self cart1) events cartWorld cartData
              eq_refl Hp) as (w' & data' & Hrun & Hdata & _ & Hcont & Hversion & _).
  exists w', data'. split; [exact Hrun|]. split; [exact Hdata|]. split; [exact Hcont|].
  rewrite Hversion. reflexivity.
Defined.

(** X7 on a new instance of [Agg]: two events recorded, then two pops. *)
Lemma record_then_pop_witness :
  let events := [{| ev_name := "EvilHasHappened"; ev_payload := 1 |};
                 {| ev_name := "EvilHasHappened"; ev_payload := 2 |}] in
  let data := {| state := 3%positive; data_version := 0; recordedEvents := [] |} in
  aggregatesData aggSetup.2 !! 2%positive = Some data
  ∧ ∃ popped w',
      (let! _ := recordAll (Some 2%positive) events in
       let! first := popRecordedEvents 2%positive in
       let! second := popRecordedEvents 2%positive in
       ret (first, second)) aggSetup.2 = (Ok (popped, []), w')
      ∧ version <$> popped = [1; 2].
Proof.
  intros events data. split; [reflexivity|].
  destruct (record_then_pop 2%positive events aggSetup.2 data eq_refl eq_refl)
    as (popped & w' & Hrun & _ & _ & Hversions).
  exists popped, w'. split; [exact Hrun|]. rewrite Hversions. reflexivity.
Defined.

(** X8 on the registry with [MyAggregate] defined and no instance yet. *)
Lemma create_is_new_witness :
  allocated myWorld
  ∧ ∃ instance w',
      create MyAggregate "agg-1" myWorld = (Ok instance, w')
      ∧ aggregatesData myWorld !! self instance = None
      ∧ instanceVar instance w' = Some (self instance)
      ∧ allocated w'.
Proof.
  assert (allocated myWorld) as Ha.
  { intros r _. repeat split; apply lookup_empty. }
  split; [exact Ha|].
  destruct (create_is_new MyAggregate "agg-1" myWorld Ha)
    as (instance & w' & st & Hrun & _ & Hnew & Hlive & _ & _ & _ & _ & _ & _ & Hw').
  exists instance, w'. split; [exact Hrun|]. split; [exact Hnew|]. split; [exact Hlive|].
  exact Hw'.
Defined.

(** X12 on the two events of [tests/aggregate.spec.ts] in both orders. *)
Lemma replay_ignores_order_witness :
  [numbersAddedAt 2; numbersAddedAt 1] ≡ₚ [numbersAddedAt 1; numbersAddedAt 2]
  ∧ loadAggregate "My aggregate" "agg-1" [numbersAddedAt 2; numbersAddedAt 1] None myWorld
    = loadAggregate "My aggregate" "agg-1" [numbersAddedAt 1; numbersAddedAt 2] None myWorld.
Proof.
  assert ([numbersAddedAt 2; numbersAddedAt 1] ≡ₚ [numbersAddedAt 1; numbersAddedAt 2])
    as Hp by apply perm_swap.
  split; [exact Hp|].
  exact (replay_ignores_order myWorld "My aggregate" "agg-1" _ _ None Hp).
Defined.

(** X13 on a replay of one event of [MyAggregate]. *)
Lemma replay_returns_live_instance_witness :
  let instance := {| self := 2%positive; scope := 1%positive; inst_id := "agg-1";
                     options := MyAggregate |} in
  let run := loadAggregate "My aggregate" "agg-1" [numbersAddedAt 1] None myWorld in
  aggregateDefinitions myWorld !! "My aggregate" = Some MyAggregate
  ∧ run = (Ok instance, run.2)
  ∧ instanceVar instance run.2 = Some (self instance).
Proof.
  intros instance run. split; [reflexivity|].
  assert (run = (Ok instance, run.2)) as Hrun by reflexivity.
  split; [exact Hrun|].
  destruct (replay_returns_live_instance myWorld run.2 "My aggregate" "agg-1"
              [numbersAddedAt 1] None MyAggregate instance eq_refl Hrun)
    as (_ & _ & Hlive & _).
  exact Hlive.
Defined.

(** X14 on an aggregate defined without handlers. *)
Lemma replay_without_handlers_witness :
  let w := (defineAggregateRoot Bare (emptyWorld Z Z 1000)).2 in
  let event := {| name := "Happened"; payload := 1; occuredAt := 0; version := 1 |} in
  aggregateDefinitions w !! "Bare" = Some Bare
  ∧ opt_events Bare = None
  ∧ (loadAggregate "Bare" "bare-1" [event] None w).1 = Throw NoEventsDefined.
Proof.
  intros w event. split; [reflexivity|]. split; [reflexivity|].
  exact (replay_without_handlers w "Bare" "bare-1" [event] None Bare eq_refl eq_refl).
Defined.

(** X15 on a history of [MyAggregate] whose second event has no handler:
    the replay fails there and the version stays at 1. *)
Lemma replay_stops_at_missing_handler_witness :
  let unknown := {| name := "Unknown"; payload := (0, 0); occuredAt := 0; version := 2 |} in
  let history := [numbersAddedAt 1; unknown; numbersAddedAt 3] in
  aggregateDefinitions myWorld !! "My aggregate" = Some MyAggregate
  ∧ newEventsOf history None = [numbersAddedAt 1] ++ unknown :: [numbersAddedAt 3]
  ∧ handlerOf MyAggregate (name unknown) = None
  ∧ ∃ w',
      loadAggregate "My aggregate" "agg-1" history None myWorld
      = (Throw (HandlerNotDefined "Unknown" "My aggregate"), w')
      ∧ data_version <$> aggregatesData w' !! 2%positive = Some 1.
Proof.
  intros unknown history. split; [reflexivity|]. split; [reflexivity|].
  split; [reflexivity|].
  apply (replay_stops_at_missing_handler myWorld "My aggregate" "agg-1" history None
           MyAggregate [numbersAddedAt 1] unknown [numbersAddedAt 3]).
  - reflexivity.
  - eexists. reflexivity.
  - reflexivity.
  - reflexivity.
  - intros event Hin. exists NumbersAdded. split; [|reflexivity].
    apply list_elem_of_singleton in Hin as ->. reflexivity.
  - reflexivity.
Defined.

(** X17 on the cart once its pending event was taken: [save] neither calls
    the store nor tells the listeners. *)
Lemma save_nothing_pending_witness :
  let r := repository true [collectNames] [collectNames] in
  let s := startSys (popRecordedEvents (self cart1) cartWorld).2 in
  let data := {| state := 3%positive; data_version := 1; recordedEvents := [] |} in
  aggregatesData (world s) !! self cart1 = Some data
  ∧ (save r cart1 s).1 = Ok tt
  ∧ calls (save r cart1 s).2 = []
  ∧ ext (save r cart1 s).2 = emptyMemory.
Proof.
  intros r s data. split; [reflexivity|].
  destruct (save_nothing_pending r cart1 s data eq_refl eq_refl)
    as (Hres & Hcalls & Hext & _).
  { eexists. reflexivity. }
  split; [exact Hres|]. split; [exact Hcalls|]. exact Hext.
Defined.

(** X18 on the save that fails with [ConcurrencyError]: the pending event
    is gone all the same. *)
Lemma save_always_clears_pending_witness :
  let r := repository false [] [] in
  aggregatesData (world busySys) !! self cart1 = Some cartData
  ∧ recordedEvents cartData = [itemAdded1]
  ∧ (save r cart1 busySys).1 = Throw ConcurrencyError
  ∧ aggregatesData (world (save r cart1 busySys).2) !! self cart1
    = Some {| state := 3%positive; data_version := 1; recordedEvents := [] |}.
Proof.
  intros r. split; [reflexivity|]. split; [reflexivity|]. split; [reflexivity|].
  exact (save_always_clears_pending r cart1 busySys cartData eq_refl).
Defined.

(** X19 on a successful save of the cart to a store with snapshots. *)
Lemma save_store_calls_in_order_witness :
  let r := repository true [] [] in
  let s := startSys cartWorld in
  aggregatesData (world s) !! self cart1 = Some cartData
  ∧ aggregateDefinitions (world s) !! aggregateName cart1 = Some ShoppingCart
  ∧ ∃ made reported saved stored,
      calls (save r cart1 s).2 = calls s ++ made
      ∧ made `prefix_of`
          [GetAggregateVersion "ShoppingCart" "cart-1" reported;
           SaveEvents [aggregateEventToStreamEvent "cart-1" "ShoppingCart" itemAdded1] saved;
           SaveSnapshot "ShoppingCart" "cart-1"
             {| snap_version := 1; snap_state := 3%positive |} stored].
Proof.
  intros r s. split; [reflexivity|]. split; [reflexivity|].
  destruct (save_store_calls_in_order r cart1 s cartData ShoppingCart itemAdded1 []
              eq_refl eq_refl eq_refl)
    as (made & reported & saved & stored & Hcalls & Hprefix & _).
  exists made, reported, saved, stored. split; [exact Hcalls|]. exact Hprefix.
Defined.

(** X20 on the store of the tests without snapshots. *)
Lemma load_without_snapshots_witness :
  let r := repository false [] [] in
  snapshotStore (store r) = None
  ∧ calls (load r ShoppingCart "cart-1" busySys).2 = [LoadHistory "ShoppingCart" "cart-1" 0].
Proof.
  intros r. split; [reflexivity|].
  destruct (load_without_snapshots r ShoppingCart "cart-1" busySys eq_refl) as [Hcalls _].
  exact Hcalls.
Defined.

(** X21 on the store of the tests with snapshots, none being stored. *)
Lemma load_with_snapshots_witness :
  let r := repository true [] [] in
  ∃ snapshots,
    snapshotStore (store r) = Some snapshots
    ∧ calls (load r ShoppingCart "cart-1" busySys).2
      = [LoadSnapshot "ShoppingCart" "cart-1"; LoadHistory "ShoppingCart" "cart-1" 0].
Proof.
  intros r. eexists. split; [reflexivity|].
  pose proof (load_with_snapshots r ShoppingCart "cart-1" busySys _ eq_refl) as Hload.
  cbv beta iota in Hload. destruct Hload as [Hcalls _]. exact Hcalls.
Defined.

(** X24 on the cart with its one pending event. *)
Lemma toRecordEvents_checks_and_consumes_witness :
  aggregatesData cartWorld !! self cart1 = Some cartData
  ∧ ∃ w',
      toRecordEvents (self cart1) (Ok tt) ["ItemAdded"] cartWorld = (Ok true, w')
      ∧ (toRecordEvents (self cart1) (Ok tt) ["ItemAdded"] w').1 = Ok false.
Proof.
  split; [reflexivity|].
  destruct (toRecordEvents_checks_and_consumes (self cart1) ["ItemAdded"] cartWorld cartData
              ConcurrencyError eq_refl) as (w' & Hfirst & Hagain & _).
  exists w'. split; [exact Hfirst|].
  destruct (Hagain ["ItemAdded"]) as [w'' ->]. reflexivity.
Defined.

(** X25 on [MyAggregate]: [NumbersAdded(1, 2)], an event without handler
    and [NumbersAdded(1, 1)] are recorded from [{ total: 1 }]; replaying the
    two events taken gives total 6 at version 2. *)
Lemma replay_reproduces_state_witness :
  let reduce := λ (_ : string) (event : IEvent (Z * Z)) (total : Z),
                  total + ((ev_payload event).1 + (ev_payload event).2) in
  let events := [{| ev_name := "NumbersAdded"; ev_payload := (1, 2) |};
                 {| ev_name := "Unknown"; ev_payload := (0, 0) |};
                 {| ev_name := "NumbersAdded"; ev_payload := (1, 1) |}] in
  aggregateDefinitions myWorld !! opt_name MyAggregate = Some MyAggregate
  ∧ reducers MyAggregate reduce
  ∧ ∃ instance recorded w1 replayed w2,
      (let! instance := create MyAggregate "agg-1" in
       let! _ := recordThatAll instance events in
       let! recorded := popRecordedEvents (self instance) in
       ret (instance, recorded)) myWorld = (Ok (instance, recorded), w1)
      ∧ loadAggregate (opt_name MyAggregate) "agg-2" recorded None w1 = (Ok replayed, w2)
      ∧ storedState (self replayed) w2 = storedState (self instance) w2.
Proof.
  intros reduce events. split; [reflexivity|].
  assert (reducers MyAggregate reduce) as Hred.
  { intros n handler Hh st event h. unfold handlerOf in Hh. simpl in Hh.
    apply lookup_singleton_Some in Hh as [_ <-]. reflexivity. }
  split; [exact Hred|].
  destruct (replay_reproduces_state myWorld MyAggregate reduce "agg-1" "agg-2" events
              eq_refl Hred)
    as (instance & recorded & w1 & replayed & w2 & Hfirst & _ & _ & Hsecond & _ & _ & _
        & Hsame & _).
  exists instance, recorded, w1, replayed, w2.
  split; [exact Hfirst|]. split; [exact Hsecond|]. exact Hsame.
Defined.

End MoreExamples.
